(** * Shallow embedding of the SQL mapping-sync worker
    (client/mapping-sync/src/sql/mod.rs): the indexed-hash cache
    [KnownHashes], the batching [SyncWorker] and its run loop. *)

From Stdlib Require Import List Bool Arith NArith Lia.
Import ListNotations.

(** ** Block hashes *)

(** [H256] is a 256-bit hash; only equality and the all-zero value
    [H256::default()] matter to the worker, so it is an [N]. *)
Definition H256 := N.
Definition H256_default : H256 := 0%N.

Definition h256_eqb (a b : H256) : bool := N.eqb a b.

(** [slice.contains] / [VecDeque::contains]. *)
Definition mem (v : H256) (l : list H256) : bool := existsb (h256_eqb v) l.

(** ** Calls made to the indexer backend (the SQL database adapter) *)

Inductive BACall :=
| CallSelectRecent (limit : nat)          (* populate_cache SELECT ... LIMIT n *)
| CallSelectHash (h : H256)               (* contains: SELECT ... WHERE hash = ? *)
| CallInsertGenesis                       (* insert_genesis_block_metadata *)
| CallInsertMeta (hs : list H256)         (* insert_block_metadata *)
| CallSpawnLogs (batch_size : nat)        (* spawn_logs_task *)
| CallCanonicalize (retracted enacted : list H256)
| CallCreateIndexes.

(** The database as the worker sees it: the [sync_status] rows in [id]
    order, and the calls this process made to the backend, oldest first. *)
Record DB := mkDB { sync_status : list H256; ba_calls : list BACall }.

Definition record_call (db : DB) (c : BACall) : DB :=
  mkDB (sync_status db) (ba_calls db ++ [c]).

(** Outcomes of the backend operations whose implementation lives in
    [fc_db::sql::Backend] (outside this crate): for each call, given the
    database state at the time of the call, whether it fails.  Every
    theorem quantifies over these. *)
Record BackendOutcomes := mkOutcomes {
  populate_fails : DB -> bool;
  select_hash_fails : DB -> H256 -> bool;
  insert_meta_fails : DB -> list H256 -> bool;
  canonicalize_fails : DB -> list H256 -> list H256 -> bool;
  create_indexes_fails : DB -> bool;
  genesis_result : DB -> option H256   (* None: insertion error *)
}.

(** ** [KnownHashes] *)

Record KnownHashes := mkKnownHashes { cache : list H256; cache_size : nat }.

(** [#[derive(Default)]]: empty [VecDeque], [usize] zero. *)
Definition KnownHashes_default : KnownHashes := mkKnownHashes [] 0.

(** [VecDeque::pop_back]. *)
Definition pop_back (l : list H256) : list H256 * option H256 :=
  match rev l with
  | [] => (l, None)
  | x :: r => (rev r, Some x)
  end.

(** [KnownHashes::insert]. *)
Definition insert (kh : KnownHashes) (value : H256) : KnownHashes * option H256 :=
  let '(c, maybe_popped) :=
    if Nat.eqb (length (cache kh)) (cache_size kh)
    then pop_back (cache kh)
    else (cache kh, None) in
  (mkKnownHashes (value :: c) (cache_size kh), maybe_popped).

(** [KnownHashes::append]: [insert] each item, dropping what it returns. *)
Definition append (kh : KnownHashes) (other : list H256) : KnownHashes :=
  fold_left (fun k item => fst (insert k item)) other kh.

(** [KnownHashes::contains_cached]. *)
Definition contains_cached (kh : KnownHashes) (value : H256) : bool :=
  mem value (cache kh).

(** [KnownHashes::latest]: the front of the deque. *)
Definition latest (kh : KnownHashes) : option H256 := hd_error (cache kh).

Section Worker.

Variable ba : BackendOutcomes.

(** [KnownHashes::populate_cache]: the rows of
    [SELECT substrate_block_hash FROM sync_status ORDER BY id DESC LIMIT n]
    are pushed at the back in that order; [None] is the query error. *)
Definition populate_cache (kh : KnownHashes) (db : DB) : option (KnownHashes * DB) :=
  let db' := record_call db (CallSelectRecent (cache_size kh)) in
  if populate_fails ba db then None
  else
    let rows := firstn (cache_size kh) (rev (sync_status db)) in
    Some (mkKnownHashes (cache kh ++ rows) (cache_size kh), db').

(** [KnownHashes::contains]: a cache hit answers without a query; on a
    miss the [sync_status] lookup decides, a query error counting as
    absent. *)
Definition contains (kh : KnownHashes) (value : H256) (db : DB) : bool * DB :=
  if contains_cached kh value then (true, db)
  else
    let db' := record_call db (CallSelectHash value) in
    if select_hash_fails ba db value then (false, db')
    else (mem value (sync_status db), db').

(** ** The indexer backend *)

(** Modelled from the spec: [fc_db::sql::Backend::insert_block_metadata]
    (not in this crate). It inserts a [sync_status] row per hash, idempotent
    on conflict; on error nothing is committed. The boolean is [is_ok]. *)
Definition ba_insert_block_metadata (db : DB) (hashes : list H256) : DB * bool :=
  let db' := record_call db (CallInsertMeta hashes) in
  if insert_meta_fails ba db hashes then (db', false)
  else
    (mkDB (fold_left (fun ss h => if mem h ss then ss else ss ++ [h])
                     hashes (sync_status db'))
          (ba_calls db'), true).

(** Modelled from the spec: [spawn_logs_task] returns at once; log
    extraction runs elsewhere and does not touch [sync_status]. *)
Definition ba_spawn_logs_task (db : DB) (batch_size : nat) : DB :=
  record_call db (CallSpawnLogs batch_size).

(** Modelled from the spec: [canonicalize(retracted, enacted)] flips
    [blocks.is_canon] (a table the worker never reads). *)
Definition ba_canonicalize (db : DB) (retracted enacted : list H256) : DB * bool :=
  (record_call db (CallCanonicalize retracted enacted),
   negb (canonicalize_fails ba db retracted enacted)).

(** Modelled from the spec: [create_indexes]. *)
Definition ba_create_indexes (db : DB) : DB * bool :=
  (record_call db CallCreateIndexes, negb (create_indexes_fails ba db)).

(** Modelled from the spec: [insert_genesis_block_metadata] idempotently
    records the genesis block and returns its hash. *)
Definition ba_insert_genesis_block_metadata (db : DB) : DB * option H256 :=
  let db' := record_call db CallInsertGenesis in
  match genesis_result ba db with
  | Some g =>
      (mkDB (if mem g (sync_status db') then sync_status db'
             else sync_status db' ++ [g]) (ba_calls db'), Some g)
  | None => (db', None)
  end.

(** ** [SyncWorker] *)

Record SyncWorker := mkSyncWorker {
  imported_blocks : KnownHashes;
  current_batch : list H256;
  batch_size : nat
}.

(** [SyncWorker::new]: every field but [batch_size] from [Default]. *)
Definition new (batch_size : nat) : SyncWorker :=
  mkSyncWorker KnownHashes_default [] batch_size.

(** Assignment to [self.imported_blocks]. *)
Definition set_imported_blocks (w : SyncWorker) (kh : KnownHashes) : SyncWorker :=
  mkSyncWorker kh (current_batch w) (batch_size w).

(** [SyncWorker::index_current_batch]: the result of
    [insert_block_metadata] is logged and dropped ([let _ = ...]). *)
Definition index_current_batch (w : SyncWorker) (db : DB) : SyncWorker * DB :=
  let '(db1, _) := ba_insert_block_metadata db (current_batch w) in
  let db2 := ba_spawn_logs_task db1 (batch_size w) in
  (mkSyncWorker (append (imported_blocks w) (current_batch w)) [] (batch_size w),
   db2).

(** [SyncWorker::index_block]. *)
Definition index_block (w : SyncWorker) (db : DB) (hash : H256) (force_sync : bool)
  : bool * SyncWorker * DB :=
  let flush_check (w1 : SyncWorker) :=
    if force_sync || Nat.eqb (length (current_batch w1)) (batch_size w1)
    then let '(w2, db2) := index_current_batch w1 db in (true, w2, db2)
    else (true, w1, db) in
  if negb (mem hash (current_batch w)) then
    flush_check (mkSyncWorker (imported_blocks w) (current_batch w ++ [hash])
                              (batch_size w))
  else if negb force_sync then (false, w, db)
  else flush_check w.

(** [Vec::pop]: the last element. *)
Definition vec_pop (l : list H256) : option (H256 * list H256) :=
  match rev l with
  | [] => None
  | x :: r => Some (x, rev r)
  end.

(** Why a traversal pass stopped: the [break]s of [SyncWorker::index], the
    frontier running empty, or the fuel bound of this model. *)
Inductive Stop := StopZero | StopKnown | StopDup | StopEmpty | StopFuel.

(** [SyncWorker::index]. [header] is [blockchain_backend.header], giving
    the parent hash when the header is found. The [while] loop runs for at
    most [fuel] iterations. *)
Fixpoint index (fuel : nat) (header : H256 -> option H256)
    (hashes : list H256) (force_sync : bool) (w : SyncWorker) (db : DB)
  : SyncWorker * DB * list H256 * Stop :=
  match fuel with
  | O => (w, db, hashes, StopFuel)
  | S fuel' =>
      match vec_pop hashes with
      | None => (w, db, hashes, StopEmpty)
      | Some (hash, hashes1) =>
          if h256_eqb hash H256_default then (w, db, hashes1, StopZero)
          else
            let '(known, db1) := contains (imported_blocks w) hash db in
            if known then (w, db1, hashes1, StopKnown)
            else
              let '(ok, w2, db2) := index_block w db1 hash force_sync in
              if negb ok then (w2, db2, hashes1, StopDup)
              else
                let hashes2 := match header hash with
                               | Some parent_hash => hashes1 ++ [parent_hash]
                               | None => hashes1
                               end in
                index fuel' header hashes2 force_sync w2 db2
      end
  end.

(** A [HashAndNumber] of a tree route. *)
Record HashAndNumber := mkHashAndNumber { hn_hash : H256; hn_number : nat }.

Record TreeRoute := mkTreeRoute {
  retracted : list HashAndNumber;
  enacted : list HashAndNumber;
  common_block : HashAndNumber
}.

(** [SyncWorker::canonicalize]: an error is only logged. *)
Definition canonicalize (db : DB) (tree_route : TreeRoute) : DB :=
  let retracted := map hn_hash (retracted tree_route) in
  let enacted := map hn_hash (enacted tree_route) in
  let '(db', _) := ba_canonicalize db retracted enacted in
  db'.

(** ** [SyncWorker::run] *)

(** The locals of [run] that live across loop iterations, with the
    database; [import_interval] is the delay the timer is armed with, in
    nanoseconds. *)
Record RunState := mkRunState {
  worker : SyncWorker;
  db : DB;
  resume_at : option H256;
  try_create_indexes : bool;
  import_interval : nat
}.

(** Everything of [run] before the [loop]; [None] is the panic of
    [.expect("query `sync_status` table")]. [header] is [client.header]. *)
Definition startup (batch_size : nat) (header : H256 -> option H256) (db0 : DB)
  : option RunState :=
  let w := new batch_size in
  match populate_cache (imported_blocks w) db0 with
  | None => None
  | Some (kh, db1) =>
      let w1 := set_imported_blocks w kh in
      match latest kh with
      | Some hash =>
          let resume_at := match header hash with
                           | Some parent_hash => Some parent_hash
                           | None => None
                           end in
          Some (mkRunState w1 db1 resume_at true 1)
      | None =>
          let '(db2, res) := ba_insert_genesis_block_metadata db1 in
          match res with
          | Some substrate_genesis_hash =>
              let kh2 := fst (insert kh substrate_genesis_hash) in
              Some (mkRunState (set_imported_blocks w1 kh2) db2 None true 1)
          | None => Some (mkRunState w1 db2 None true 1)
          end
      end
  end.

(** The interval branch of the [select!]: [leaves] is the result of
    [backend.leaves()] ([None] for an error), [interval] the configured
    duration. *)
Definition interval_step (fuel : nat) (leaves : option (list H256))
    (header : H256 -> option H256) (interval : nat) (s : RunState) : RunState :=
  match leaves with
  | Some leaves0 =>
      let '(leaves1, resume_at') :=
        match resume_at s with
        | Some hash => (leaves0 ++ [hash], None)
        | None => (leaves0, resume_at s)
        end in
      let leaves2 :=
        filter (fun leaf => negb (contains_cached (imported_blocks (worker s)) leaf))
               leaves1 in
      let '(w', db', _, _) := index fuel header leaves2 false (worker s) (db s) in
      mkRunState w' db' resume_at' (try_create_indexes s) interval
  | None =>
      mkRunState (worker s) (db s) (resume_at s) (try_create_indexes s) interval
  end.

(** An import notification. *)
Record Notification := mkNotification {
  n_hash : H256;
  n_parent_hash : H256;
  is_new_best : bool;
  tree_route : option TreeRoute
}.

(** The notification branch of the [select!]; [None] is the end of the
    fused stream. *)
Definition notification_step (fuel : nat) (notification : option Notification)
    (header : H256 -> option H256) (s : RunState) : RunState :=
  match notification with
  | None => s
  | Some n =>
      if is_new_best n then
        let db1 := match tree_route n with
                   | Some tr => canonicalize (db s) tr
                   | None => db s
                   end in
        let '(db2, tci) :=
          if try_create_indexes s
          then (fst (ba_create_indexes db1), false)
          else (db1, try_create_indexes s) in
        let '(w', db3, _, _) := index fuel header [n_hash n] true (worker s) db2 in
        mkRunState w' db3 (resume_at s) tci (import_interval s)
      else s
  end.

(** The states [run] goes through, from a fresh process (no backend call
    made yet) over a database holding [rows] in [sync_status]. *)
Inductive reachable (batch_size : nat) : RunState -> Prop :=
| reach_start header rows s :
    startup batch_size header (mkDB rows []) = Some s -> reachable batch_size s
| reach_interval s fuel leaves header interval :
    reachable batch_size s ->
    reachable batch_size (interval_step fuel leaves header interval s)
| reach_notification s fuel n header :
    reachable batch_size s ->
    reachable batch_size (notification_step fuel n header s).

End Worker.

(** * Weights of [pallet_evm] (frame/evm/src/weights.rs) *)

Module EvmWeights.

(** [Weight] is a [u64]; [saturating_add] and [saturating_mul] clamp at
    [u64::MAX]. *)
Definition u64_max : N := 2 ^ 64 - 1.

Definition saturating_add (a b : N) : N := N.min (a + b) u64_max.
Definition saturating_mul (a b : N) : N := N.min (a * b) u64_max.

(** [RuntimeDbWeight] of [frame_support]: the cost of one read and of one
    write; [reads(r)] and [writes(w)] are [read.saturating_mul(r)] and
    [write.saturating_mul(w)]. *)
Record RuntimeDbWeight := mkDbWeight { read : N; write : N }.

Definition reads (db : RuntimeDbWeight) (r : N) : N := saturating_mul (read db) r.
Definition writes (db : RuntimeDbWeight) (w : N) : N := saturating_mul (write db) w.

(** [hotfix_inc_account_sufficients(n)], the same body in
    [SubstrateWeight<T>] (with [T::DbWeight]) and in [()] (with
    [RocksDbWeight]); [n] is a [u32] widened to [Weight]. *)
Definition hotfix_inc_account_sufficients (dbw : RuntimeDbWeight) (n : N) : N :=
  saturating_add
    (saturating_add
       (saturating_add
          (saturating_add
             (saturating_add 0 (saturating_mul 10462000 n))
             (reads dbw 3))
          (reads dbw (saturating_mul 1 n)))
       (writes dbw 2))
    (writes dbw (saturating_mul 1 n)).

End EvmWeights.

(** * Properties *)

(** ** The cache *)

Lemma pop_back_in (l : list H256) (x : H256) :
  In x (fst (pop_back l)) -> In x l.
Proof.
  unfold pop_back. destruct (rev l) as [|y r] eqn:E; simpl; [auto|].
  intro H. rewrite <- (rev_involutive l), E. simpl.
  apply in_or_app. left. exact H.
Qed.

Lemma insert_in (kh : KnownHashes) (v x : H256) :
  In x (cache (fst (insert kh v))) -> x = v \/ In x (cache kh).
Proof.
  unfold insert.
  destruct (Nat.eqb (length (cache kh)) (cache_size kh)).
  - destruct (pop_back (cache kh)) as [c p] eqn:E. simpl.
    intros [H|H]; [left; auto|right].
    apply pop_back_in. rewrite E. exact H.
  - simpl. intros [H|H]; auto.
Qed.

Lemma insert_cache_size (kh : KnownHashes) (v : H256) :
  cache_size (fst (insert kh v)) = cache_size kh.
Proof.
  unfold insert.
  destruct (Nat.eqb _ _); [destruct (pop_back (cache kh))|]; reflexivity.
Qed.

(** With capacity 0 nothing is ever evicted: [insert] only prepends. *)
Lemma insert_size0 (kh : KnownHashes) (v : H256) :
  cache_size kh = 0 ->
  insert kh v = (mkKnownHashes (v :: cache kh) 0, None).
Proof.
  intro H0. unfold insert. rewrite H0.
  destruct (cache kh) as [|y r]; reflexivity.
Qed.

Lemma append_in (kh : KnownHashes) (l : list H256) (x : H256) :
  In x (cache (append kh l)) -> In x l \/ In x (cache kh).
Proof.
  revert kh. induction l as [|a l IH]; simpl; intros kh H; [auto|].
  apply IH in H. destruct H as [H|H]; [auto|].
  apply insert_in in H. destruct H as [H|H]; auto.
Qed.

Lemma append_cache_size (kh : KnownHashes) (l : list H256) :
  cache_size (append kh l) = cache_size kh.
Proof.
  revert kh. induction l as [|a l IH]; simpl; intro kh; [reflexivity|].
  rewrite IH. apply insert_cache_size.
Qed.

Lemma append_size0 (kh : KnownHashes) (l : list H256) :
  cache_size kh = 0 -> append kh l = mkKnownHashes (rev l ++ cache kh) 0.
Proof.
  revert kh. induction l as [|a l IH]; simpl; intros kh H0.
  - destruct kh as [c n]; simpl in *; subst; reflexivity.
  - rewrite insert_size0 by exact H0. simpl. rewrite IH by reflexivity.
    simpl. rewrite <- app_assoc. reflexivity.
Qed.

Lemma mem_In (v : H256) (l : list H256) : mem v l = true <-> In v l.
Proof.
  unfold mem. rewrite existsb_exists. split.
  - intros [x [Hx Hq]]. unfold h256_eqb in Hq. apply N.eqb_eq in Hq. subst; auto.
  - intro H. exists v. split; [auto|]. apply N.eqb_refl.
Qed.

(** ** Backend calls *)

(** Every [insert_block_metadata] batch in [cs] satisfies [P]. *)
Definition calls_batches (P : list H256 -> Prop) (cs : list BACall) : Prop :=
  forall hs, In (CallInsertMeta hs) cs -> P hs.

(** [db'] is [db] with more backend calls, whose batches satisfy [P]. *)
Definition extends_by (P : list H256 -> Prop) (db db' : DB) : Prop :=
  exists new, ba_calls db' = ba_calls db ++ new /\ calls_batches P new.

Lemma calls_batches_app (P : list H256 -> Prop) (a b : list BACall) :
  calls_batches P a -> calls_batches P b -> calls_batches P (a ++ b).
Proof.
  intros Ha Hb hs H. apply in_app_or in H. destruct H; auto.
Qed.

Lemma extends_refl (P : list H256 -> Prop) (d : DB) : extends_by P d d.
Proof.
  exists []. rewrite app_nil_r. split; [reflexivity|]. intros hs [].
Qed.

Lemma extends_trans (P : list H256 -> Prop) (d1 d2 d3 : DB) :
  extends_by P d1 d2 -> extends_by P d2 d3 -> extends_by P d1 d3.
Proof.
  intros [n1 [E1 H1]] [n2 [E2 H2]]. exists (n1 ++ n2).
  rewrite E2, E1, app_assoc. split; [reflexivity|].
  apply calls_batches_app; auto.
Qed.

Lemma extends_record (P : list H256 -> Prop) (d : DB) (c : BACall) :
  (forall hs, c = CallInsertMeta hs -> P hs) -> extends_by P d (record_call d c).
Proof.
  intro Hc. exists [c]. split; [reflexivity|].
  intros hs [H|[]]. apply Hc. auto.
Qed.

Create HintDb worker.
#[export] Hint Resolve extends_refl : worker.

(** ** One step of the worker *)

Section Steps.

Variable ba : BackendOutcomes.

Lemma contains_extends (P : list H256 -> Prop) kh v d :
  extends_by P d (snd (contains ba kh v d)).
Proof.
  unfold contains. destruct (contains_cached kh v); [apply extends_refl|].
  destruct (select_hash_fails ba d v); apply extends_record; discriminate.
Qed.

(** A flush: its calls, and the worker afterwards, whatever
    [insert_block_metadata] returned. *)
Lemma index_current_batch_eq (w : SyncWorker) (d : DB) :
  index_current_batch ba w d =
  (mkSyncWorker (append (imported_blocks w) (current_batch w)) [] (batch_size w),
   mkDB (sync_status (fst (ba_insert_block_metadata ba d (current_batch w))))
        (ba_calls d ++ [CallInsertMeta (current_batch w);
                        CallSpawnLogs (batch_size w)])).
Proof.
  unfold index_current_batch, ba_insert_block_metadata, ba_spawn_logs_task.
  destruct (insert_meta_fails ba d (current_batch w)); simpl;
    unfold record_call; simpl; rewrite <- app_assoc; reflexivity.
Qed.

Lemma index_current_batch_extends (P : list H256 -> Prop) w d :
  P (current_batch w) -> extends_by P d (snd (index_current_batch ba w d)).
Proof.
  intro HP. rewrite index_current_batch_eq. simpl.
  exists [CallInsertMeta (current_batch w); CallSpawnLogs (batch_size w)].
  split; [reflexivity|].
  intros hs [H|[H|[]]]; [injection H as <-; exact HP | discriminate].
Qed.

Lemma canonicalize_calls (d : DB) (tr : TreeRoute) :
  canonicalize ba d tr =
  record_call d (CallCanonicalize (map hn_hash (retracted tr))
                                  (map hn_hash (enacted tr))).
Proof. reflexivity. Qed.

(** [index_block], case by case. *)
Lemma index_block_eq (w : SyncWorker) (d : DB) (h : H256) (force : bool) :
  index_block ba w d h force =
  if mem h (current_batch w) && negb force then (false, w, d)
  else
    let w1 := if mem h (current_batch w) then w
              else mkSyncWorker (imported_blocks w) (current_batch w ++ [h])
                                (batch_size w) in
    if force || Nat.eqb (length (current_batch w1)) (batch_size w1)
    then (true, fst (index_current_batch ba w1 d), snd (index_current_batch ba w1 d))
    else (true, w1, d).
Proof.
  unfold index_block.
  destruct (mem h (current_batch w)), force; simpl;
    repeat match goal with
           | |- context [if ?b then _ else _] => destruct b
           | |- context [let '(_, _) := ?p in _] => destruct p
           end; reflexivity.
Qed.

End Steps.

(** ** Invariants of a traversal pass *)

(** A property [I] of the worker, and a property [P] of the flushed
    batches, that every [index_block] on a non-zero hash keeps, hold
    through a whole [index] pass. *)
Section IndexInvariant.

Variable ba : BackendOutcomes.
Variable P : list H256 -> Prop.
Variable I : SyncWorker -> Prop.
Variable force_sync : bool.

Hypothesis index_block_keeps : forall w d h ok w' d',
  h <> H256_default -> I w -> index_block ba w d h force_sync = (ok, w', d') ->
  I w' /\ extends_by P d d'.

Lemma index_keeps fuel header hashes w d w' d' rest st :
  I w -> index ba fuel header hashes force_sync w d = (w', d', rest, st) ->
  I w' /\ extends_by P d d'.
Proof.
  revert hashes w d. induction fuel as [|fuel IH]; intros hashes w d HI Hrun;
    simpl in Hrun.
  - injection Hrun as <- <- _ _. auto with worker.
  - destruct (vec_pop hashes) as [[hash hashes1]|].
    2: injection Hrun as <- <- _ _; auto with worker.
    destruct (h256_eqb hash H256_default) eqn:Hz.
    1: injection Hrun as <- <- _ _; auto with worker.
    assert (Hne : hash <> H256_default) by (apply N.eqb_neq; exact Hz).
    destruct (contains ba (imported_blocks w) hash d) as [known d1] eqn:Hc.
    assert (E1 : extends_by P d d1).
    { pose proof (contains_extends ba P (imported_blocks w) hash d) as E.
      rewrite Hc in E. exact E. }
    destruct known.
    1: injection Hrun as <- <- _ _; auto.
    destruct (index_block ba w d1 hash force_sync) as [[ok w2] d2] eqn:Hb.
    destruct (index_block_keeps w d1 hash ok w2 d2 Hne HI Hb) as [HI2 E2].
    destruct ok; simpl in Hrun.
    + destruct (IH _ _ _ HI2 Hrun) as [HI' E3].
      split; [exact HI'|]. eapply extends_trans; [exact E1|].
      eapply extends_trans; eassumption.
    + injection Hrun as <- <- _ _. split; [exact HI2|].
      eapply extends_trans; eassumption.
Qed.

End IndexInvariant.

(** The parameters of the cache and of the batcher never change. *)
Lemma index_current_batch_sizes ba w d :
  cache_size (imported_blocks (fst (index_current_batch ba w d)))
    = cache_size (imported_blocks w) /\
  batch_size (fst (index_current_batch ba w d)) = batch_size w.
Proof.
  rewrite index_current_batch_eq. simpl. rewrite append_cache_size. auto.
Qed.

Lemma index_block_sizes ba w d h force ok w' d' :
  index_block ba w d h force = (ok, w', d') ->
  cache_size (imported_blocks w') = cache_size (imported_blocks w) /\
  batch_size w' = batch_size w.
Proof.
  rewrite index_block_eq. cbv zeta. intro E.
  destruct (mem h (current_batch w) && negb force).
  - injection E as _ <- _. auto.
  - destruct (_ || _); injection E as _ <- _.
    + destruct (index_current_batch_sizes ba
                  (if mem h (current_batch w) then w
                   else mkSyncWorker (imported_blocks w) (current_batch w ++ [h])
                                     (batch_size w)) d) as [E1 E2].
      rewrite E1, E2. destruct (mem h (current_batch w)); auto.
    + destruct (mem h (current_batch w)); auto.
Qed.

Lemma index_block_extends (P : list H256 -> Prop) ba w d h force ok w' d' :
  P (current_batch w) -> P (current_batch w ++ [h]) ->
  index_block ba w d h force = (ok, w', d') -> extends_by P d d'.
Proof.
  intros H1 H2. rewrite index_block_eq. cbv zeta. intro E.
  destruct (mem h (current_batch w) && negb force).
  - injection E as _ _ <-. apply extends_refl.
  - destruct (_ || _); injection E as _ _ <-; [|apply extends_refl].
    apply index_current_batch_extends.
    destruct (mem h (current_batch w)); assumption.
Qed.

Lemma index_sizes ba fuel header hashes force w d w' d' rest st :
  index ba fuel header hashes force w d = (w', d', rest, st) ->
  cache_size (imported_blocks w') = cache_size (imported_blocks w) /\
  batch_size w' = batch_size w.
Proof.
  intro Hrun.
  set (Inv := fun w1 => cache_size (imported_blocks w1) = cache_size (imported_blocks w)
                      /\ batch_size w1 = batch_size w).
  assert (Hk : forall w0 d0 h ok w1 d1, h <> H256_default -> Inv w0 ->
            index_block ba w0 d0 h force = (ok, w1, d1) ->
            Inv w1 /\ extends_by (fun _ => True) d0 d1).
  { intros w0 d0 h ok w1 d1 _ HI Hb. split.
    - destruct (index_block_sizes ba w0 d0 h force ok w1 d1 Hb) as [E1 E2].
      unfold Inv in *. rewrite E1, E2. exact HI.
    - eapply index_block_extends; [exact I | exact I | exact Hb]. }
  refine (proj1 (index_keeps ba _ Inv force Hk fuel header hashes w d w' d' rest st
                   _ Hrun)).
  unfold Inv; auto.
Qed.

(** The worker after a flush. *)
Definition flushed (w : SyncWorker) : SyncWorker :=
  mkSyncWorker (append (imported_blocks w) (current_batch w)) [] (batch_size w).

(** [self.current_batch.push(hash)]. *)
Definition pushed (w : SyncWorker) (h : H256) : SyncWorker :=
  mkSyncWorker (imported_blocks w) (current_batch w ++ [h]) (batch_size w).

Lemma index_block_worker ba w d h force ok w' d' :
  index_block ba w d h force = (ok, w', d') ->
  w' = w \/ w' = pushed w h \/ w' = flushed w \/ w' = flushed (pushed w h).
Proof.
  rewrite index_block_eq. cbv zeta. intro E.
  destruct (mem h (current_batch w) && negb force).
  - injection E as _ <- _. auto.
  - rewrite index_current_batch_eq in E. simpl in E.
    destruct (mem h (current_batch w)), (_ || _); injection E as _ <- _;
      unfold flushed, pushed; auto.
Qed.

(** With [force_sync = true], [index_block] always flushes. *)
Lemma index_block_force ba w d h :
  index_block ba w d h true =
  let w1 := if mem h (current_batch w) then w else pushed w h in
  (true, flushed w1, snd (index_current_batch ba w1 d)).
Proof.
  rewrite index_block_eq. cbv zeta. rewrite andb_false_r. simpl.
  f_equal. f_equal. rewrite index_current_batch_eq. reflexivity.
Qed.

(** ** Startup and the run loop *)

Lemma startup_shape ba bs header d0 s :
  startup ba bs header d0 = Some s ->
  resume_at s = None /\ cache_size (imported_blocks (worker s)) = 0 /\
  batch_size (worker s) = bs /\ current_batch (worker s) = [] /\
  ba_calls (db s) = ba_calls d0 ++ [CallSelectRecent 0; CallInsertGenesis] /\
  (cache (imported_blocks (worker s)) = [] \/
   exists g, genesis_result ba (record_call d0 (CallSelectRecent 0)) = Some g /\
             cache (imported_blocks (worker s)) = [g]).
Proof.
  unfold startup, populate_cache. simpl.
  destruct (populate_fails ba d0); [discriminate|]. simpl.
  unfold ba_insert_genesis_block_metadata.
  destruct (genesis_result ba (record_call d0 (CallSelectRecent 0))) as [g|] eqn:G;
    intro E; injection E as <-; simpl;
    unfold record_call; simpl; rewrite <- app_assoc; simpl;
    repeat split; eauto.
Qed.

Ltac step_index :=
  match goal with
  | |- context [index ?b ?f ?h ?l ?fs ?w ?d] =>
      let Hi := fresh "Hi" in
      destruct (index b f h l fs w d) as [[[?w' ?d'] ?r] ?st] eqn:Hi; simpl
  end.

Lemma reachable_params ba bs s :
  reachable ba bs s ->
  cache_size (imported_blocks (worker s)) = 0 /\ resume_at s = None /\
  batch_size (worker s) = bs.
Proof.
  induction 1 as [header rows s Hs | s fuel leaves header interval _ IH
                 | s fuel n header _ IH].
  - destruct (startup_shape ba bs header _ s Hs) as (? & ? & ? & _). auto.
  - destruct IH as (H1 & H2 & H3). unfold interval_step.
    destruct leaves as [leaves|]; [|simpl; auto].
    rewrite H2. step_index.
    destruct (index_sizes _ _ _ _ _ _ _ _ _ _ _ Hi) as [E1 E2].
    rewrite E1, E2. auto.
  - destruct IH as (H1 & H2 & H3). unfold notification_step.
    destruct n as [n|]; [|auto]. destruct (is_new_best n); [|auto].
    destruct (tree_route n), (try_create_indexes s); step_index;
      destruct (index_sizes _ _ _ _ _ _ _ _ _ _ _ Hi) as [E1 E2];
      rewrite E1, E2; auto.
Qed.

(** ** The all-zero hash *)

Definition no_zero_batch (hs : list H256) : Prop := ~ In H256_default hs.

Definition no_zero_worker (w : SyncWorker) : Prop :=
  ~ In H256_default (cache (imported_blocks w)) /\
  ~ In H256_default (current_batch w).

Lemma calls_batches_record (P : list H256 -> Prop) d c :
  calls_batches P (ba_calls d) -> (forall hs, c <> CallInsertMeta hs) ->
  calls_batches P (ba_calls (record_call d c)).
Proof.
  intros H Hc. apply calls_batches_app; [exact H|].
  intros hs [E|[]]. exfalso. exact (Hc hs E).
Qed.

Lemma extends_batches (P : list H256 -> Prop) d d' :
  calls_batches P (ba_calls d) -> extends_by P d d' -> calls_batches P (ba_calls d').
Proof.
  intros H [new [E Hn]]. rewrite E. apply calls_batches_app; assumption.
Qed.

Lemma no_zero_batch_push (l : list H256) (h : H256) :
  h <> H256_default -> no_zero_batch l -> no_zero_batch (l ++ [h]).
Proof.
  intros Hh Hl Hin. apply in_app_or in Hin. destruct Hin as [H|[H|[]]]; auto.
Qed.

Lemma no_zero_flushed (w : SyncWorker) :
  no_zero_worker w -> no_zero_worker (flushed w).
Proof.
  intros [Hc Hb]. split; simpl; [|intros []].
  intro H. apply append_in in H. destruct H; auto.
Qed.

Lemma index_block_no_zero ba w d h force ok w' d' :
  h <> H256_default -> no_zero_worker w ->
  index_block ba w d h force = (ok, w', d') ->
  no_zero_worker w' /\ extends_by no_zero_batch d d'.
Proof.
  intros Hh Hw Hb. split.
  - assert (Hp : no_zero_worker (pushed w h)).
    { destruct Hw as [Hc Hbt]. split; [exact Hc|].
      apply no_zero_batch_push; assumption. }
    destruct (index_block_worker ba w d h force ok w' d' Hb) as [E|[E|[E|E]]];
      subst w'; auto using no_zero_flushed.
  - eapply index_block_extends; [exact (proj2 Hw) | | exact Hb].
    apply no_zero_batch_push; [exact Hh | exact (proj2 Hw)].
Qed.

Lemma index_no_zero ba fuel header hashes force w d w' d' rest st :
  no_zero_worker w -> calls_batches no_zero_batch (ba_calls d) ->
  index ba fuel header hashes force w d = (w', d', rest, st) ->
  no_zero_worker w' /\ calls_batches no_zero_batch (ba_calls d').
Proof.
  intros Hw Hd Hi.
  destruct (index_keeps ba no_zero_batch no_zero_worker force
              (fun w0 d0 h => index_block_no_zero ba w0 d0 h force)
              fuel header hashes w d w' d' rest st Hw Hi)
    as [Hw' E].
  split; [exact Hw'|]. eapply extends_batches; eassumption.
Qed.

Lemma reachable_no_zero ba bs s :
  (forall d g, genesis_result ba d = Some g -> g <> H256_default) ->
  reachable ba bs s ->
  no_zero_worker (worker s) /\ calls_batches no_zero_batch (ba_calls (db s)).
Proof.
  intros Hg. induction 1 as [header rows s Hs | s fuel leaves header interval _ IH
                            | s fuel n header _ IH].
  - destruct (startup_shape ba bs header _ s Hs) as (_ & _ & _ & Hb & Hc & Hk).
    split; [split|].
    + destruct Hk as [E|[g [G E]]]; rewrite E; [intros []|].
      intros [H|[]]. exact (Hg _ _ G H).
    + rewrite Hb. intros [].
    + rewrite Hc. intros hs [H|[H|[]]]; discriminate.
  - destruct IH as [Hw Hd]. unfold interval_step.
    destruct leaves as [leaves|]; [|simpl; auto].
    destruct (resume_at s); step_index; eapply index_no_zero; eassumption.
  - destruct IH as [Hw Hd]. unfold notification_step.
    destruct n as [n|]; [|auto]. destruct (is_new_best n); [|auto].
    destruct (tree_route n) as [tr|]; [rewrite canonicalize_calls|];
      destruct (try_create_indexes s); step_index;
      (eapply index_no_zero; [exact Hw | | eassumption]);
      repeat (apply calls_batches_record; [|discriminate]); exact Hd.
Qed.

(** A traversal pass only adds backend calls. *)
Lemma index_extends ba fuel header hashes force w d w' d' rest st :
  index ba fuel header hashes force w d = (w', d', rest, st) ->
  extends_by (fun _ => True) d d'.
Proof.
  intro Hi.
  refine (proj2 (index_keeps ba (fun _ => True) (fun _ => True) force _
                   fuel header hashes w d w' d' rest st I Hi)).
  intros w0 d0 h ok w1 d1 _ _ Hb. split; [exact I|].
  eapply index_block_extends; [exact I | exact I | exact Hb].
Qed.

Lemma NoDup_push (l : list H256) (x : H256) :
  NoDup l -> ~ In x l -> NoDup (l ++ [x]).
Proof.
  induction l as [|a l IH]; simpl; intros Hl Hx.
  - constructor; [intros []|constructor].
  - inversion Hl as [|? ? Ha Hl']; subst. constructor.
    + intro H. apply in_app_or in H. destruct H as [H|[H|[]]]; [auto|].
      apply Hx. left. symmetry. exact H.
    + apply IH; [exact Hl'|]. intro H. apply Hx. right. exact H.
Qed.

(** ** A concrete setting *)

(** Every backend call succeeds; the genesis block is [1]. *)
Definition demo_ba : BackendOutcomes :=
  mkOutcomes (fun _ => false) (fun _ _ => false) (fun _ _ => false)
             (fun _ _ _ => false) (fun _ => false) (fun _ => Some 1%N).

(** As [demo_ba], but every [insert_block_metadata] fails. *)
Definition failing_insert_ba : BackendOutcomes :=
  mkOutcomes (fun _ => false) (fun _ _ => false) (fun _ _ => true)
             (fun _ _ _ => false) (fun _ => false) (fun _ => Some 1%N).

(** A chain genesis [1] with blocks [5] and [7 -> 5] whose headers give
    the all-zero parent for [5] (below-genesis sentinel). *)
Definition demo_header (h : H256) : option H256 :=
  if N.eqb h 5 then Some 0%N
  else if N.eqb h 7 then Some 5%N
  else None.

(** * Invariants of the run loop *)

Lemma vec_pop_push (rest : list H256) (h : H256) :
  vec_pop (rest ++ [h]) = Some (h, rest).
Proof.
  unfold vec_pop. rewrite rev_app_distr. simpl. rewrite rev_involutive. reflexivity.
Qed.

(** A property of the worker and the database that every [index_block]
    on a non-zero hash missing from the cache keeps, and that the
    [sync_status] query of [contains] keeps, holds through a pass. *)
Section Preserves.

Variable ba : BackendOutcomes.
Variable I : SyncWorker -> DB -> Prop.
Variable force_sync : bool.

Hypothesis contains_keeps : forall w d h,
  I w d -> I w (snd (contains ba (imported_blocks w) h d)).

Hypothesis index_block_keeps : forall w d h ok w' d',
  h <> H256_default -> contains_cached (imported_blocks w) h = false -> I w d ->
  index_block ba w d h force_sync = (ok, w', d') -> I w' d'.

Lemma index_preserves fuel header hashes w d w' d' rest st :
  I w d -> index ba fuel header hashes force_sync w d = (w', d', rest, st) -> I w' d'.
Proof.
  revert hashes w d. induction fuel as [|fuel IH]; intros hashes w d HI Hrun;
    simpl in Hrun.
  - injection Hrun as <- <- _ _. exact HI.
  - destruct (vec_pop hashes) as [[hash hashes1]|].
    2: injection Hrun as <- <- _ _; exact HI.
    destruct (h256_eqb hash H256_default) eqn:Hz.
    1: injection Hrun as <- <- _ _; exact HI.
    assert (Hne : hash <> H256_default) by (apply N.eqb_neq; exact Hz).
    pose proof (contains_keeps w d hash HI) as HI1.
    destruct (contains ba (imported_blocks w) hash d) as [known d1] eqn:Hc.
    simpl in HI1.
    destruct known.
    1: injection Hrun as <- <- _ _; exact HI1.
    assert (Hcc : contains_cached (imported_blocks w) hash = false).
    { unfold contains in Hc. destruct (contains_cached (imported_blocks w) hash);
        [discriminate | reflexivity]. }
    destruct (index_block ba w d1 hash force_sync) as [[ok w2] d2] eqn:Hb.
    pose proof (index_block_keeps w d1 hash ok w2 d2 Hne Hcc HI1 Hb) as HI2.
    destruct ok; simpl in Hrun.
    + exact (IH _ _ _ HI2 Hrun).
    + injection Hrun as <- <- _ _. exact HI2.
Qed.

End Preserves.

(** Every [insert_block_metadata] call carries a non-empty batch. *)
Definition ok_call (c : BACall) : Prop :=
  match c with
  | CallInsertMeta hs => hs <> []
  | _ => True
  end.

(** Where a hash of the IHC cache comes from: a batch submitted to
    [insert_block_metadata], or the genesis hash returned by
    [insert_genesis_block_metadata]. *)
Definition provenance (ba : BackendOutcomes) (cs : list BACall) (h : H256) : Prop :=
  (exists hs, In (CallInsertMeta hs) cs /\ In h hs) \/
  (In CallInsertGenesis cs /\ exists d, genesis_result ba d = Some h).

Definition pass_inv (ba : BackendOutcomes) (w : SyncWorker) (d : DB) : Prop :=
  (0 < batch_size w -> length (current_batch w) < batch_size w) /\
  NoDup (current_batch w) /\
  (forall h, In h (current_batch w) -> ~ In h (cache (imported_blocks w))) /\
  (forall c, In c (ba_calls d) -> ok_call c) /\
  (forall h, In h (cache (imported_blocks w)) -> provenance ba (ba_calls d) h).

Lemma provenance_grow ba cs more h :
  provenance ba cs h -> provenance ba (cs ++ more) h.
Proof.
  intros [[hs [Hin Hh]] | [Hg Hr]].
  - left. exists hs. split; [apply in_or_app; left; exact Hin | exact Hh].
  - right. split; [apply in_or_app; left; exact Hg | exact Hr].
Qed.

Lemma pass_inv_grow ba w d d' more :
  ba_calls d' = ba_calls d ++ more -> (forall c, In c more -> ok_call c) ->
  pass_inv ba w d -> pass_inv ba w d'.
Proof.
  intros Hd Hm (H1 & H2 & H3 & H4 & H5). unfold pass_inv. rewrite Hd.
  split; [exact H1|]. split; [exact H2|]. split; [exact H3|]. split.
  - intros c Hc. apply in_app_or in Hc. destruct Hc; auto.
  - intros h Hh. apply provenance_grow. auto.
Qed.

Lemma flush_inv ba w d :
  current_batch w <> [] ->
  (forall c, In c (ba_calls d) -> ok_call c) ->
  (forall h, In h (cache (imported_blocks w)) -> provenance ba (ba_calls d) h) ->
  pass_inv ba (fst (index_current_batch ba w d)) (snd (index_current_batch ba w d)).
Proof.
  intros Hne Hok Hpr. rewrite index_current_batch_eq. simpl.
  split; [simpl; lia|]. split; [constructor|]. split; [intros _ []|]. split.
  - intros c Hc. apply in_app_or in Hc.
    destruct Hc as [Hc|[<-|[<-|[]]]]; [auto | exact Hne | exact I].
  - intros h Hh. apply append_in in Hh. destruct Hh as [Hh|Hh].
    + left. exists (current_batch w). split; [|exact Hh].
      apply in_or_app. right. left. reflexivity.
    + apply provenance_grow. auto.
Qed.

Lemma contains_inv ba w d h :
  pass_inv ba w d -> pass_inv ba w (snd (contains ba (imported_blocks w) h d)).
Proof.
  intro HI. unfold contains. destruct (contains_cached (imported_blocks w) h);
    [exact HI|].
  destruct (select_hash_fails ba d h); simpl;
    (apply (pass_inv_grow ba w d _ [CallSelectHash h]); [reflexivity | | exact HI]);
    intros c [<-|[]]; exact I.
Qed.

Lemma index_block_inv ba force w d h ok w' d' :
  contains_cached (imported_blocks w) h = false -> pass_inv ba w d ->
  index_block ba w d h force = (ok, w', d') -> pass_inv ba w' d'.
Proof.
  intros Hcc HI Hb. pose proof HI as (H1 & H2 & H3 & H4 & H5).
  rewrite index_block_eq in Hb. cbv zeta in Hb.
  destruct (mem h (current_batch w)) eqn:Hm; simpl in Hb.
  - destruct force; simpl in Hb.
    + injection Hb as _ <- <-. apply flush_inv; [|exact H4 | exact H5].
      apply mem_In in Hm. intro E. rewrite E in Hm. destruct Hm.
    + injection Hb as _ <- <-. exact HI.
  - assert (Hh : ~ In h (cache (imported_blocks w))).
    { intro Hin. apply mem_In in Hin. unfold contains_cached in Hcc. congruence. }
    assert (Hp : ~ In h (current_batch w)).
    { intro Hin. apply mem_In in Hin. congruence. }
    destruct (force || Nat.eqb (length (current_batch w ++ [h])) (batch_size w)) eqn:Hf.
    + injection Hb as _ <- <-. apply flush_inv; simpl; [| exact H4 | exact H5].
      intro E. destruct (current_batch w); discriminate.
    + injection Hb as _ <- <-. apply orb_false_iff in Hf. destruct Hf as [_ Hf].
      apply Nat.eqb_neq in Hf. rewrite length_app in Hf. simpl in Hf.
      split; [simpl; rewrite length_app; simpl; intro Hpos; specialize (H1 Hpos); lia|].
      split; [simpl; apply NoDup_push; assumption|].
      split; [|split; assumption].
      simpl. intros x Hx. apply in_app_or in Hx. destruct Hx as [Hx|[<-|[]]]; auto.
Qed.

Lemma index_inv ba fuel header hashes force w d w' d' rest st :
  pass_inv ba w d -> index ba fuel header hashes force w d = (w', d', rest, st) ->
  pass_inv ba w' d'.
Proof.
  apply index_preserves.
  - intros w0 d0 h. apply contains_inv.
  - intros w0 d0 h ok w1 d1 _ Hcc HI Hb. exact (index_block_inv ba _ _ _ _ _ _ _ Hcc HI Hb).
Qed.

Lemma reachable_inv ba bs s : reachable ba bs s -> pass_inv ba (worker s) (db s).
Proof.
  induction 1 as [header rows s Hs | s fuel leaves header interval _ IH
                 | s fuel n header _ IH].
  - destruct (startup_shape ba bs header _ s Hs) as (_ & _ & _ & Hb & Hc & Hk).
    unfold pass_inv. rewrite Hb, Hc. simpl.
    split; [simpl; lia|]. split; [constructor|]. split; [intros _ []|]. split.
    + intros c [<-|[<-|[]]]; exact I.
    + destruct Hk as [E|[g [G E]]]; rewrite E; [intros _ []|].
      intros h [<-|[]]. right. split; [right; left; reflexivity | eexists; exact G].
  - unfold interval_step.
    destruct leaves as [leaves|]; [|exact IH].
    destruct (resume_at s); step_index; eapply index_inv; eassumption.
  - unfold notification_step.
    destruct n as [n|]; [|exact IH]. destruct (is_new_best n); [|exact IH].
    destruct (tree_route n) as [tr|]; [rewrite canonicalize_calls|];
      destruct (try_create_indexes s); step_index;
      (eapply index_inv; [|eassumption]);
      (eapply pass_inv_grow;
         [ unfold ba_create_indexes, record_call; simpl;
           first [ exact (eq_sym (app_nil_r _)) | rewrite <- ?app_assoc; reflexivity ]
         | intros c Hc; repeat destruct Hc as [<-|Hc]; solve [exact I | destruct Hc]
         | exact IH ]).
Qed.

Definition is_create_indexes (c : BACall) : bool :=
  match c with CallCreateIndexes => true | _ => false end.

(** How many times [create_indexes] was called. *)
Definition count_create (cs : list BACall) : nat :=
  length (filter is_create_indexes cs).

Lemma count_create_app cs more :
  count_create (cs ++ more) = count_create cs + count_create more.
Proof. unfold count_create. rewrite filter_app, length_app. reflexivity. Qed.

Lemma index_count_create ba fuel header hashes force w d w' d' rest st :
  index ba fuel header hashes force w d = (w', d', rest, st) ->
  count_create (ba_calls d') = count_create (ba_calls d).
Proof.
  intro Hi.
  refine (index_preserves ba
            (fun _ d0 => count_create (ba_calls d0) = count_create (ba_calls d))
            force _ _ fuel header hashes w d w' d' rest st eq_refl Hi).
  - intros w0 d0 h E. unfold contains.
    destruct (contains_cached (imported_blocks w0) h); [exact E|].
    destruct (select_hash_fails ba d0 h); simpl;
      rewrite count_create_app, E; cbn [count_create filter is_create_indexes length]; lia.
  - intros w0 d0 h ok w1 d1 _ _ E Hb.
    rewrite index_block_eq in Hb. cbv zeta in Hb.
    destruct (mem h (current_batch w0) && negb force).
    + injection Hb as _ _ <-. exact E.
    + rewrite index_current_batch_eq in Hb.
      destruct (force || _); injection Hb as _ _ <-; simpl;
        rewrite ?count_create_app, E; cbn [count_create filter is_create_indexes length]; lia.
Qed.

(** The states [run] goes through after a given state [s0]. *)
Inductive run_steps (ba : BackendOutcomes) (s0 : RunState) : RunState -> Prop :=
| steps_here : run_steps ba s0 s0
| steps_interval s fuel leaves header interval :
    run_steps ba s0 s -> run_steps ba s0 (interval_step ba fuel leaves header interval s)
| steps_notification s fuel n header :
    run_steps ba s0 s -> run_steps ba s0 (notification_step ba fuel n header s).

Lemma reachable_run_steps ba bs s s' :
  reachable ba bs s -> run_steps ba s s' -> reachable ba bs s'.
Proof.
  intros Hr Hs. induction Hs; [exact Hr | apply reach_interval | apply reach_notification];
    assumption.
Qed.

(** [index_block], by the worker it leaves: unchanged or with the hash
    pushed, or one of these two flushed. *)
Lemma index_block_shape ba w d h force ok w' d' :
  index_block ba w d h force = (ok, w', d') ->
  (d' = d /\ (w' = w \/ w' = pushed w h)) \/
  (exists w1, (w1 = w \/ w1 = pushed w h) /\
              w' = fst (index_current_batch ba w1 d) /\
              d' = snd (index_current_batch ba w1 d)).
Proof.
  rewrite index_block_eq. cbv zeta. intro Hb.
  destruct (mem h (current_batch w) && negb force).
  - injection Hb as _ <- <-. left. auto.
  - destruct (mem h (current_batch w)); (destruct (force || _);
      injection Hb as _ <- <-; [right; eexists; split; [|split; reflexivity] | left];
      unfold pushed; auto).
Qed.

(** A hash [h] held in the IHC at capacity 0, absent from the pending
    batch, and sent to no [insert_block_metadata] call since the log [c0]. *)
Definition keeps_cached (h : H256) (c0 : list BACall) (w : SyncWorker) (d : DB) : Prop :=
  cache_size (imported_blocks w) = 0 /\ In h (cache (imported_blocks w)) /\
  ~ In h (current_batch w) /\
  exists more, ba_calls d = c0 ++ more /\
               forall hs, In (CallInsertMeta hs) more -> ~ In h hs.

Lemma keeps_cached_grow h c0 w d d' more :
  ba_calls d' = ba_calls d ++ more ->
  (forall hs, In (CallInsertMeta hs) more -> ~ In h hs) ->
  keeps_cached h c0 w d -> keeps_cached h c0 w d'.
Proof.
  intros Hd Hn (H0 & H1 & H2 & m & E & Hm).
  split; [exact H0|]. split; [exact H1|]. split; [exact H2|].
  exists (m ++ more). rewrite Hd, E, app_assoc. split; [reflexivity|].
  intros hs Hin. apply in_app_or in Hin. destruct Hin; eauto.
Qed.

Lemma flush_keeps_cached ba h c0 w d :
  keeps_cached h c0 w d ->
  keeps_cached h c0 (fst (index_current_batch ba w d)) (snd (index_current_batch ba w d)).
Proof.
  intros (H0 & H1 & H2 & m & E & Hm). rewrite index_current_batch_eq.
  unfold keeps_cached. simpl.
  split; [rewrite append_cache_size; exact H0|].
  split; [rewrite append_size0 by exact H0; simpl; apply in_or_app; right; exact H1|].
  split; [intros []|].
  exists (m ++ [CallInsertMeta (current_batch w); CallSpawnLogs (batch_size w)]).
  rewrite E, <- app_assoc. split; [reflexivity|].
  intros hs Hin. apply in_app_or in Hin.
  destruct Hin as [Hin|[Hin|[Hin|[]]]]; [eauto | | discriminate].
  injection Hin as <-. exact H2.
Qed.

Lemma index_keeps_cached ba h c0 fuel header hashes force w d w' d' rest st :
  keeps_cached h c0 w d -> index ba fuel header hashes force w d = (w', d', rest, st) ->
  keeps_cached h c0 w' d'.
Proof.
  apply index_preserves.
  - intros w0 d0 x HK. unfold contains.
    destruct (contains_cached (imported_blocks w0) x); [exact HK|].
    destruct (select_hash_fails ba d0 x); simpl;
      (apply (keeps_cached_grow h c0 w0 d0 _ [CallSelectHash x]);
       [reflexivity | intros hs [E|[]]; discriminate | exact HK]).
  - intros w0 d0 x ok w1 d1 _ Hcc HK Hb.
    assert (Hpush : keeps_cached h c0 (pushed w0 x) d0).
    { destruct HK as (H0 & H1 & H2 & Hc). split; [exact H0|]. split; [exact H1|].
      split; [|exact Hc]. simpl. intro Hin. apply in_app_or in Hin.
      destruct Hin as [Hin|[E|[]]]; [exact (H2 Hin)|]. subst x.
      apply mem_In in H1. unfold contains_cached in Hcc. congruence. }
    destruct (index_block_shape ba w0 d0 x force ok w1 d1 Hb)
      as [[-> [-> | ->]] | [w2 [[-> | ->] [-> ->]]]];
      auto using flush_keeps_cached.
Qed.

Lemma interval_keeps_cached ba h c0 fuel leaves header interval s :
  keeps_cached h c0 (worker s) (db s) ->
  keeps_cached h c0 (worker (interval_step ba fuel leaves header interval s))
                    (db (interval_step ba fuel leaves header interval s)).
Proof.
  intro HK. unfold interval_step.
  destruct leaves as [leaves|]; [|exact HK].
  destruct (resume_at s); step_index; eapply index_keeps_cached; eassumption.
Qed.

Lemma notification_keeps_cached ba h c0 fuel n header s :
  keeps_cached h c0 (worker s) (db s) ->
  keeps_cached h c0 (worker (notification_step ba fuel n header s))
                    (db (notification_step ba fuel n header s)).
Proof.
  intro HK. unfold notification_step.
  destruct n as [n|]; [|exact HK]. destruct (is_new_best n); [|exact HK].
  destruct (tree_route n) as [tr|]; [rewrite canonicalize_calls|];
    destruct (try_create_indexes s); step_index;
    (eapply index_keeps_cached; [|eassumption]);
    (eapply keeps_cached_grow;
       [ unfold ba_create_indexes, record_call; simpl;
         first [ exact (eq_sym (app_nil_r _)) | rewrite <- ?app_assoc; reflexivity ]
       | intros hs Hc; repeat destruct Hc as [Hc|Hc]; solve [discriminate | destruct Hc]
       | exact HK ]).
Qed.

(** Once in the IHC of a state of [run], a hash stays there and is never
    sent to [insert_block_metadata] again. *)
Lemma run_steps_keeps_cached ba bs s s' h :
  reachable ba bs s -> In h (cache (imported_blocks (worker s))) -> run_steps ba s s' ->
  keeps_cached h (ba_calls (db s)) (worker s') (db s').
Proof.
  intros Hr Hh Hs. induction Hs as [| s1 fuel leaves header interval _ IH
                                    | s1 fuel n header _ IH].
  - destruct (reachable_params ba bs s Hr) as (H0 & _ & _).
    destruct (reachable_inv ba bs s Hr) as (_ & _ & H3 & _).
    split; [exact H0|]. split; [exact Hh|]. split; [intro Hp; exact (H3 h Hp Hh)|].
    exists []. rewrite app_nil_r. split; [reflexivity | intros hs []].
  - apply interval_keeps_cached. exact IH.
  - apply notification_keeps_cached. exact IH.
Qed.


(** Where a hash of the IHC comes from, [gdb] being the database
    [insert_genesis_block_metadata] was called on. *)
Definition provenance_at (ba : BackendOutcomes) (gdb : DB) (cs : list BACall) (h : H256)
  : Prop :=
  (exists hs, In (CallInsertMeta hs) cs /\ In h hs) \/
  (In CallInsertGenesis cs /\ genesis_result ba gdb = Some h).

Definition cache_prov (ba : BackendOutcomes) (gdb : DB) (w : SyncWorker) (d : DB) : Prop :=
  forall h, In h (cache (imported_blocks w)) -> provenance_at ba gdb (ba_calls d) h.

Lemma cache_prov_grow ba gdb w d d' more :
  ba_calls d' = ba_calls d ++ more -> cache_prov ba gdb w d -> cache_prov ba gdb w d'.
Proof.
  intros Hd HP h Hh. rewrite Hd.
  destruct (HP h Hh) as [[hs [Hin Hx]] | [Hg Hr]].
  - left. exists hs. split; [apply in_or_app; left; exact Hin | exact Hx].
  - right. split; [apply in_or_app; left; exact Hg | exact Hr].
Qed.

Lemma flush_cache_prov ba gdb w d :
  cache_prov ba gdb w d ->
  cache_prov ba gdb (fst (index_current_batch ba w d)) (snd (index_current_batch ba w d)).
Proof.
  intro HP. rewrite index_current_batch_eq. intros h Hh. simpl in Hh.
  apply append_in in Hh. destruct Hh as [Hh|Hh].
  - left. exists (current_batch w). split; [|exact Hh].
    apply in_or_app. right. left. reflexivity.
  - destruct (HP h Hh) as [[hs [Hin Hx]] | [Hg Hr]]; [left; exists hs | right];
      (split; [apply in_or_app; left; assumption | assumption]).
Qed.

Lemma index_cache_prov ba gdb fuel header hashes force w d w' d' rest st :
  cache_prov ba gdb w d -> index ba fuel header hashes force w d = (w', d', rest, st) ->
  cache_prov ba gdb w' d'.
Proof.
  apply index_preserves.
  - intros w0 d0 x HP. unfold contains.
    destruct (contains_cached (imported_blocks w0) x); [exact HP|].
    destruct (select_hash_fails ba d0 x); simpl;
      exact (cache_prov_grow ba gdb w0 d0 (record_call d0 (CallSelectHash x))
               [CallSelectHash x] eq_refl HP).
  - intros w0 d0 x ok w1 d1 _ _ HP Hb.
    destruct (index_block_shape ba w0 d0 x force ok w1 d1 Hb)
      as [[-> [-> | ->]] | [w2 [[-> | ->] [-> ->]]]];
      auto using flush_cache_prov.
Qed.

(** The run of the failing-insert setting with [batch_size = 1]: after
    startup, an interval tick on leaf [5] (its flush fails), then an
    import notification of [5] as new best. *)
Definition fail_start : RunState :=
  mkRunState (mkSyncWorker (mkKnownHashes [1%N] 0) [] 1)
             (mkDB [1%N] [CallSelectRecent 0; CallInsertGenesis]) None true 1.

Lemma fail_start_reachable : reachable failing_insert_ba 1 fail_start.
Proof. exact (reach_start failing_insert_ba 1 demo_header [] fail_start eq_refl). Qed.

Definition fail_tick : RunState :=
  interval_step failing_insert_ba 10 (Some [5%N]) demo_header 1000 fail_start.

Definition fail_renotify : RunState :=
  notification_step failing_insert_ba 10 (Some (mkNotification 5%N 0%N true None))
                    demo_header fail_tick.

(** * The claims *)

(** ** C1 *)

(** C1 (as stated: a failed [insert_block_metadata] leaves the flushed
    hashes out of the IHC) fails: with [batch_size = 1], an interval tick
    on leaf [5] flushes [[5]], the insert fails, yet [5] is in the IHC and
    not in [sync_status]; the next tick on the same leaf makes no backend
    call at all. *)
Lemma C1_failed_flush_still_cached :
  match startup failing_insert_ba 1 demo_header (mkDB [] []) with
  | Some s0 =>
      let s1 := interval_step failing_insert_ba 10 (Some [5%N]) demo_header 1000 s0 in
      let s2 := interval_step failing_insert_ba 10 (Some [5%N]) demo_header 1000 s1 in
      In (CallInsertMeta [5%N]) (ba_calls (db s1)) /\
      insert_meta_fails failing_insert_ba (db s0) [5%N] = true /\
      contains_cached (imported_blocks (worker s1)) 5%N = true /\
      ~ In 5%N (sync_status (db s1)) /\
      ba_calls (db s2) = ba_calls (db s1)
  | None => False
  end.
Proof.
  vm_compute. split; [tauto|]. split; [reflexivity|]. split; [reflexivity|].
  split; [intros [H|[]]; discriminate | reflexivity].
Qed.

(** C1 (amended): a flush ignores what [insert_block_metadata] returns;
    whatever the outcome it appends the whole batch to the IHC and clears
    the pending list; with capacity 0 (the one [SyncWorker::new] gives)
    every hash of the flushed batch is then in the IHC. From any state of
    [run] whose IHC holds a hash, through every later interval tick and
    notification, the hash stays in the IHC, no later
    [insert_block_metadata] call carries it, and a pass that reaches it
    stops there without a backend call: it is never re-attempted. *)
Theorem C1_flush_ignores_insert_error (ba : BackendOutcomes) :
  (forall w d,
     fst (index_current_batch ba w d) =
       mkSyncWorker (append (imported_blocks w) (current_batch w)) [] (batch_size w) /\
     (cache_size (imported_blocks w) = 0 ->
      forall h, In h (current_batch w) ->
      contains_cached (imported_blocks (fst (index_current_batch ba w d))) h = true)) /\
  (forall bs s s' h,
     reachable ba bs s -> In h (cache (imported_blocks (worker s))) -> run_steps ba s s' ->
     contains_cached (imported_blocks (worker s')) h = true /\
     (exists more, ba_calls (db s') = ba_calls (db s) ++ more /\
                   forall hs, In (CallInsertMeta hs) more -> ~ In h hs) /\
     (h <> H256_default -> forall fuel header rest force,
        index ba (S fuel) header (rest ++ [h]) force (worker s') (db s') =
        (worker s', db s', rest, StopKnown))).
Proof.
  split.
  - intros w d. rewrite index_current_batch_eq. split; [reflexivity|].
    intros H0 h Hin. simpl. rewrite append_size0 by exact H0.
    unfold contains_cached. simpl. apply mem_In. apply in_or_app. left.
    apply -> in_rev. exact Hin.
  - intros bs s s' h Hr Hh Hs.
    destruct (run_steps_keeps_cached ba bs s s' h Hr Hh Hs) as (_ & H1 & _ & Hc).
    assert (Hcc : contains_cached (imported_blocks (worker s')) h = true)
      by (apply mem_In; exact H1).
    split; [exact Hcc|]. split; [exact Hc|].
    intros Hz fuel header rest force. simpl. rewrite vec_pop_push.
    unfold h256_eqb. apply N.eqb_neq in Hz. rewrite Hz.
    unfold contains. rewrite Hcc. reflexivity.
Qed.

Lemma C1_flush_ignores_insert_error_witness :
  cache_size (imported_blocks (mkSyncWorker KnownHashes_default [5%N] 1)) = 0 /\
  contains_cached
    (imported_blocks (fst (index_current_batch failing_insert_ba
                             (mkSyncWorker KnownHashes_default [5%N] 1)
                             (mkDB [] [])))) 5%N = true /\
  contains_cached (imported_blocks (worker fail_renotify)) 5%N = true /\
  index failing_insert_ba 3 demo_header [5%N] true (worker fail_renotify) (db fail_renotify)
  = (worker fail_renotify, db fail_renotify, [], StopKnown).
Proof.
  assert (Hr : reachable failing_insert_ba 1 fail_tick)
    by (apply reach_interval; exact fail_start_reachable).
  assert (Hh : In 5%N (cache (imported_blocks (worker fail_tick))))
    by (vm_compute; auto).
  assert (Hs : run_steps failing_insert_ba fail_tick fail_renotify)
    by (apply steps_notification; apply steps_here).
  pose proof (proj2 (C1_flush_ignores_insert_error failing_insert_ba)
                1 fail_tick fail_renotify 5%N Hr Hh Hs) as (Hc & _ & Hk).
  split; [reflexivity|]. split.
  - apply (proj2 (proj1 (C1_flush_ignores_insert_error failing_insert_ba)
                    (mkSyncWorker KnownHashes_default [5%N] 1) (mkDB [] [])));
      [reflexivity | left; reflexivity].
  - split; [exact Hc|]. exact (Hk ltac:(discriminate) 2 demo_header [] true).
Defined.

(** ** C2 *)

(** C2 fails on the code: [SyncWorker::new] leaves the IHC capacity
    [cache_size] at its [Default] value 0, so the very first [insert]
    (genesis, at startup) meets a "full" cache ([len == cache_size == 0]),
    evicts nothing, and leaves a cache of length 1 over capacity 0; from
    then on [len != cache_size] and nothing is ever evicted. *)
Theorem C2_ihc_exceeds_capacity :
  match startup demo_ba 100 demo_header (mkDB [] []) with
  | Some s => cache_size (imported_blocks (worker s)) = 0 /\
              cache (imported_blocks (worker s)) = [1%N]
  | None => False
  end /\
  insert KnownHashes_default 7%N = (mkKnownHashes [7%N] 0, None) /\
  length (cache (append (mkKnownHashes [1%N] 0) [2; 3; 4; 5; 6]%N)) = 6.
Proof.
  vm_compute. repeat split.
Qed.

(** ** C3 *)




(** ** C4 *)

(** C4: [index_block] returns [false] exactly for a hash already pending
    without [force_sync]; an absent hash is appended once, so the pending
    list stays duplicate-free; the batch is flushed exactly when
    [force_sync] holds or the pending list (after the append) has
    [batch_size] entries, and then [insert_block_metadata] gets that list;
    otherwise nothing is called. *)
Theorem C4_index_block_spec ba w d h force ok w' d' :
  index_block ba w d h force = (ok, w', d') ->
  (ok = false <-> mem h (current_batch w) = true /\ force = false) /\
  (NoDup (current_batch w) -> NoDup (current_batch w')) /\
  (ok = false -> w' = w /\ d' = d) /\
  (ok = true ->
   let p' := if mem h (current_batch w) then current_batch w
             else current_batch w ++ [h] in
   ((force = true \/ length p' = batch_size w) /\ current_batch w' = [] /\
    ba_calls d' = ba_calls d ++ [CallInsertMeta p'; CallSpawnLogs (batch_size w)]) \/
   (force = false /\ length p' <> batch_size w /\ current_batch w' = p' /\ d' = d)).
Proof.
  rewrite index_block_eq. cbv zeta.
  assert (Hnd : mem h (current_batch w) = false ->
                NoDup (current_batch w) -> NoDup (current_batch w ++ [h])).
  { intros Hm Hn. apply NoDup_push; [exact Hn|].
    intro Hin. apply mem_In in Hin. congruence. }
  destruct (mem h (current_batch w)) eqn:Hm, force; simpl;
    [ | | | destruct (Nat.eqb (length (current_batch w ++ [h])) (batch_size w)) eqn:Hl];
    rewrite ?index_current_batch_eq; intro E; injection E as <- <- <-; simpl;
    (split; [split; [intro F; try discriminate F; auto
                    | intros [F G]; try discriminate F; try discriminate G; auto] |]).
  - split; [intros _; constructor|]. split; [discriminate|].
    intros _. left. auto.
  - split; [auto|]. split; [auto|]. discriminate.
  - split; [intros _; constructor|]. split; [discriminate|].
    intros _. left. auto.
  - split; [intros _; constructor|]. split; [discriminate|].
    intros _. left. apply Nat.eqb_eq in Hl. auto.
  - split; [exact (Hnd eq_refl)|]. split; [discriminate|].
    intros _. right. apply Nat.eqb_neq in Hl. auto.
Qed.

Lemma C4_index_block_spec_witness :
  index_block demo_ba (mkSyncWorker KnownHashes_default [3%N] 10) (mkDB [] []) 5%N false
    = (true, mkSyncWorker KnownHashes_default [3%N; 5%N] 10, mkDB [] []) /\
  NoDup [3%N; 5%N].
Proof.
  split; [reflexivity|].
  apply (proj1 (proj2 (C4_index_block_spec demo_ba
            (mkSyncWorker KnownHashes_default [3%N] 10) (mkDB [] []) 5%N false
            true (mkSyncWorker KnownHashes_default [3%N; 5%N] 10) (mkDB [] [])
            eq_refl))).
  repeat constructor; simpl; intuition discriminate.
Defined.

(** ** C5 *)

(** C5: in every state [run] reaches, given a backend whose genesis hash
    is a real (non-zero) block hash, the all-zero hash is neither in the
    IHC nor pending, and no [insert_block_metadata] call made so far got
    it: a traversal breaks on it before [index_block]. *)
Theorem C5_zero_hash_never_indexed (ba : BackendOutcomes) (bs : nat) (s : RunState) :
  (forall d g, genesis_result ba d = Some g -> g <> H256_default) ->
  reachable ba bs s ->
  ~ In H256_default (cache (imported_blocks (worker s))) /\
  ~ In H256_default (current_batch (worker s)) /\
  (forall hs, In (CallInsertMeta hs) (ba_calls (db s)) -> ~ In H256_default hs).
Proof.
  intros Hg Hr.
  destruct (reachable_no_zero ba bs s Hg Hr) as [[Hc Hb] Hd].
  split; [exact Hc|]. split; [exact Hb|]. exact Hd.
Qed.

Lemma C5_zero_hash_never_indexed_witness :
  match startup demo_ba 10 demo_header (mkDB [] []) with
  | Some s0 =>
      let s1 := interval_step demo_ba 10 (Some [5%N; 0%N]) demo_header 1000 s0 in
      ~ In H256_default (current_batch (worker s1))
  | None => False
  end.
Proof.
  destruct (startup demo_ba 10 demo_header (mkDB [] [])) as [s0|] eqn:E;
    [|discriminate].
  cbv zeta.
  refine (proj1 (proj2 (C5_zero_hash_never_indexed demo_ba 10 _ _ _))).
  - intros d g G. simpl in G. injection G as <-. discriminate.
  - apply reach_interval. exact (reach_start demo_ba 10 demo_header [] s0 E).
Defined.

(** ** C6 *)

(** C6: [contains] answers a cache hit with [true] and no query; on a miss
    it queries [sync_status] for the hash and answers whether a row
    exists, and [false] when the query fails. *)
Theorem C6_contains_spec (ba : BackendOutcomes) (kh : KnownHashes) (v : H256) (d : DB) :
  (contains_cached kh v = true -> contains ba kh v d = (true, d)) /\
  (contains_cached kh v = false ->
   contains ba kh v d =
     (negb (select_hash_fails ba d v) && mem v (sync_status d),
      record_call d (CallSelectHash v))).
Proof.
  unfold contains. split; intro H; rewrite H; [reflexivity|].
  destruct (select_hash_fails ba d v); reflexivity.
Qed.

Lemma C6_contains_spec_witness :
  contains demo_ba (mkKnownHashes [1%N] 0) 1%N (mkDB [] []) = (true, mkDB [] []) /\
  contains failing_insert_ba (mkKnownHashes [] 0) 4%N (mkDB [4%N] [])
    = (true, mkDB [4%N] [CallSelectHash 4%N]).
Proof.
  split.
  - apply (proj1 (C6_contains_spec demo_ba (mkKnownHashes [1%N] 0) 1%N (mkDB [] []))).
    reflexivity.
  - apply (proj2 (C6_contains_spec failing_insert_ba (mkKnownHashes [] 0) 4%N
                    (mkDB [4%N] []))).
    reflexivity.
Defined.

(** ** C7 *)

(** C7: on a new-best notification with a tree route, the worker first
    calls [canonicalize] with the route's retracted and enacted hashes in
    route order, whatever it returns, and then traverses from the notified
    head with [force_sync], after that call. *)
Theorem C7_canonicalize_before_index (ba : BackendOutcomes) (fuel : nat)
    (n : Notification) (header : H256 -> option H256) (s : RunState) (tr : TreeRoute) :
  is_new_best n = true -> tree_route n = Some tr ->
  let s' := notification_step ba fuel (Some n) header s in
  let dbc := canonicalize ba (db s) tr in
  ba_calls dbc = ba_calls (db s) ++
                 [CallCanonicalize (map hn_hash (retracted tr)) (map hn_hash (enacted tr))] /\
  (exists dbi rest st,
     (dbi = dbc \/ dbi = record_call dbc CallCreateIndexes) /\
     index ba fuel header [n_hash n] true (worker s) dbi = (worker s', db s', rest, st)) /\
  (exists more, ba_calls (db s') = ba_calls dbc ++ more).
Proof.
  intros Hb Ht. cbv zeta. unfold notification_step. rewrite Hb, Ht.
  split; [reflexivity|].
  destruct (try_create_indexes s); simpl; step_index;
    (split; [do 3 eexists; split; [| exact Hi]; auto|]);
    destruct (index_extends _ _ _ _ _ _ _ _ _ _ _ Hi) as [new [E _]];
    rewrite E; [exists (CallCreateIndexes :: new); unfold record_call; simpl;
                rewrite <- app_assoc; reflexivity
               | exists new; reflexivity].
Qed.

Lemma C7_canonicalize_before_index_witness :
  exists more,
    ba_calls (db (notification_step demo_ba 10
                    (Some (mkNotification 7%N 5%N true
                             (Some (mkTreeRoute [mkHashAndNumber 9%N 2]
                                                [mkHashAndNumber 5%N 1; mkHashAndNumber 7%N 2]
                                                (mkHashAndNumber 1%N 0)))))
                    demo_header (mkRunState (new 10) (mkDB [1%N] []) None true 1000)))
    = [CallCanonicalize [9%N] [5%N; 7%N]] ++ more.
Proof.
  exact (proj2 (proj2 (C7_canonicalize_before_index demo_ba 10
    (mkNotification 7%N 5%N true
       (Some (mkTreeRoute [mkHashAndNumber 9%N 2]
                          [mkHashAndNumber 5%N 1; mkHashAndNumber 7%N 2]
                          (mkHashAndNumber 1%N 0))))
    demo_header (mkRunState (new 10) (mkDB [1%N] []) None true 1000)
    (mkTreeRoute [mkHashAndNumber 9%N 2] [mkHashAndNumber 5%N 1; mkHashAndNumber 7%N 2]
                 (mkHashAndNumber 1%N 0))
    eq_refl eq_refl))).
Defined.

(** ** C8 *)

(** C8: [SyncWorker::new] gives the IHC capacity 0, which nothing changes;
    [populate_cache] then asks for [LIMIT 0] and adds no entry whatever the
    table holds; the IHC is empty after hydration ([latest] is [None]), so
    startup always takes the genesis branch and never sets [resume_at],
    and no later step sets it either. *)
Theorem C8_default_capacity_zero (ba : BackendOutcomes) (bs : nat) :
  cache_size (imported_blocks (new bs)) = 0 /\
  (forall d0, populate_cache ba (imported_blocks (new bs)) d0 = None \/
              populate_cache ba (imported_blocks (new bs)) d0
                = Some (KnownHashes_default, record_call d0 (CallSelectRecent 0))) /\
  latest KnownHashes_default = None /\
  (forall header d0 s, startup ba bs header d0 = Some s ->
     resume_at s = None /\
     ba_calls (db s) = ba_calls d0 ++ [CallSelectRecent 0; CallInsertGenesis]) /\
  (forall s, reachable ba bs s ->
     cache_size (imported_blocks (worker s)) = 0 /\ resume_at s = None).
Proof.
  split; [reflexivity|]. split.
  - intro d0. unfold populate_cache. simpl.
    destruct (populate_fails ba d0); [left|right]; reflexivity.
  - split; [reflexivity|]. split.
    + intros header d0 s Hs.
      destruct (startup_shape ba bs header d0 s Hs) as (H1 & _ & _ & _ & H2 & _).
      auto.
    + intros s Hr. destruct (reachable_params ba bs s Hr) as (H1 & H2 & _). auto.
Qed.

Lemma C8_default_capacity_zero_witness :
  match startup demo_ba 10 demo_header (mkDB [1%N; 5%N; 7%N] []) with
  | Some s => resume_at s = None /\
              ba_calls (db s) = [CallSelectRecent 0; CallInsertGenesis]
  | None => False
  end.
Proof.
  destruct (startup demo_ba 10 demo_header (mkDB [1%N; 5%N; 7%N] [])) as [s|] eqn:E;
    [|discriminate].
  exact (proj1 (proj2 (proj2 (proj2 (C8_default_capacity_zero demo_ba 10))))
           demo_header (mkDB [1%N; 5%N; 7%N] []) s E).
Defined.

(** ** C9 *)

(** C9 (as stated: under [force_sync] every visited block is committed in
    an [insert_block_metadata] call of its own, of length 1) fails: a
    non-force tick leaves [5] pending, and the next notification, for [7],
    flushes [[5; 7]] in one call. *)
Lemma C9_force_flush_carries_pending :
  match startup demo_ba 10 demo_header (mkDB [] []) with
  | Some s0 =>
      let s1 := interval_step demo_ba 10 (Some [5%N]) demo_header 1000 s0 in
      let s2 := notification_step demo_ba 10 (Some (mkNotification 7%N 5%N true None))
                                  demo_header s1 in
      exists new, ba_calls (db s2) = ba_calls (db s1) ++ new /\
                  In (CallInsertMeta [5%N; 7%N]) new
  | None => False
  end.
Proof.
  vm_compute. eexists. split; [reflexivity|]. simpl. tauto.
Qed.

(** C9 (amended): with [force_sync = true], [index_block] returns [true]
    and flushes in the same call, handing [insert_block_metadata] the
    pending list with the hash appended (or as it was, if it held the
    hash); so a force pass that starts with nothing pending flushes every
    visited block in a call of length 1, while hashes left pending by
    earlier non-force passes go out with the first visited block. *)
Theorem C9_force_flushes_each_visit :
  (forall ba w d h,
     let w1 := if mem h (current_batch w) then w else pushed w h in
     index_block ba w d h true = (true, flushed w1, snd (index_current_batch ba w1 d)) /\
     ba_calls (snd (index_current_batch ba w1 d))
       = ba_calls d ++ [CallInsertMeta (current_batch w1); CallSpawnLogs (batch_size w)]) /\
  (forall ba fuel header hashes w d w' d' rest st,
     current_batch w = [] ->
     index ba fuel header hashes true w d = (w', d', rest, st) ->
     exists new, ba_calls d' = ba_calls d ++ new /\
                 forall hs, In (CallInsertMeta hs) new -> length hs = 1).
Proof.
  split.
  - intros ba w d h. cbv zeta. split; [apply index_block_force|].
    rewrite index_current_batch_eq. simpl.
    destruct (mem h (current_batch w)); reflexivity.
  - intros ba fuel header hashes w d w' d' rest st H0 Hi.
    refine (proj2 (index_keeps ba (fun hs => length hs = 1)
                     (fun w1 => current_batch w1 = []) true _
                     fuel header hashes w d w' d' rest st H0 Hi)).
    intros w0 d0 h ok w1 d1 _ Hb0 Hb. rewrite index_block_force in Hb.
    injection Hb as _ <- <-. split; [reflexivity|].
    apply index_current_batch_extends. rewrite Hb0. unfold pushed. simpl.
    rewrite Hb0. reflexivity.
Qed.

Lemma C9_force_flushes_each_visit_witness :
  exists calls,
    ba_calls (snd (fst (fst (index demo_ba 10 demo_header [7%N] true (new 10) (mkDB [1%N] [])))))
      = [] ++ calls /\
    forall hs, In (CallInsertMeta hs) calls -> length hs = 1.
Proof.
  apply (proj2 C9_force_flushes_each_visit demo_ba 10 demo_header [7%N] (new 10)
           (mkDB [1%N] [])
           (fst (fst (fst (index demo_ba 10 demo_header [7%N] true (new 10) (mkDB [1%N] [])))))
           _
           (snd (fst (index demo_ba 10 demo_header [7%N] true (new 10) (mkDB [1%N] []))))
           (snd (index demo_ba 10 demo_header [7%N] true (new 10) (mkDB [1%N] [])))).
  - reflexivity.
  - vm_compute. reflexivity.
Defined.

(** ** C10 *)

(** C10: a tick on which [leaves()] fails touches neither the worker nor
    the database nor [resume_at], and rearms the timer with [interval];
    [resume_at] is cleared on a tick where [leaves()] succeeds. *)
Theorem C10_leaves_error_tick (ba : BackendOutcomes) (fuel : nat)
    (header : H256 -> option H256) (interval : nat) (s : RunState) :
  let s' := interval_step ba fuel None header interval s in
  worker s' = worker s /\ db s' = db s /\ resume_at s' = resume_at s /\
  try_create_indexes s' = try_create_indexes s /\ import_interval s' = interval /\
  (forall leaves, resume_at (interval_step ba fuel (Some leaves) header interval s) = None /\
                  import_interval (interval_step ba fuel (Some leaves) header interval s)
                    = interval).
Proof.
  cbv zeta. do 5 (split; [reflexivity|]).
  intro leaves. unfold interval_step.
  destruct (resume_at s); step_index; split; reflexivity.
Qed.

(** * Further properties of the code *)

(** ** [hotfix_inc_account_sufficients] *)

Module EvmWeightsFacts.
Import EvmWeights.

Lemma saturating_add_mono a a' b b' :
  (a <= a')%N -> (b <= b')%N -> (saturating_add a b <= saturating_add a' b')%N.
Proof. unfold saturating_add. lia. Qed.

Lemma saturating_mul_mono a a' b b' :
  (a <= a')%N -> (b <= b')%N -> (saturating_mul a b <= saturating_mul a' b')%N.
Proof.
  unfold saturating_mul. intros Ha Hb.
  pose proof (N.mul_le_mono _ _ _ _ Ha Hb). lia.
Qed.

Lemma saturating_add_exact a b : (a + b <= u64_max)%N -> saturating_add a b = (a + b)%N.
Proof. unfold saturating_add. lia. Qed.

Lemma saturating_mul_exact a b : (a * b <= u64_max)%N -> saturating_mul a b = (a * b)%N.
Proof. unfold saturating_mul. lia. Qed.

(** The weight never decreases as the number of accounts grows, whatever
    the database weights. *)
Theorem hotfix_weight_monotone (dbw : RuntimeDbWeight) (n m : N) :
  (n <= m)%N ->
  (hotfix_inc_account_sufficients dbw n <= hotfix_inc_account_sufficients dbw m)%N.
Proof.
  intro H. unfold hotfix_inc_account_sufficients, reads, writes.
  repeat first [ apply saturating_add_mono | apply saturating_mul_mono
               | apply N.le_refl | exact H ].
Qed.

Lemma hotfix_weight_monotone_witness :
  (hotfix_inc_account_sufficients (mkDbWeight 25000000 100000000) 3 <=
   hotfix_inc_account_sufficients (mkDbWeight 25000000 100000000) 7)%N.
Proof. apply hotfix_weight_monotone. lia. Defined.

(** For any [u32] count and database weights whose read and write costs
    add up to at most 4*10^9, no addition or product saturates: the
    weight is exactly linear in [n]. *)
Theorem hotfix_weight_exact (dbw : RuntimeDbWeight) (n : N) :
  (read dbw + write dbw <= 4000000000)%N -> (n < 2 ^ 32)%N ->
  hotfix_inc_account_sufficients dbw n =
    (10462000 * n + read dbw * 3 + read dbw * n + write dbw * 2 + write dbw * n)%N.
Proof.
  intros Hrw Hn. destruct dbw as [r w]. cbn [read write] in *.
  assert (Hr : (r * n <= 4000000000 * 2 ^ 32)%N) by (apply N.mul_le_mono; lia).
  assert (Hw : (w * n <= 4000000000 * 2 ^ 32)%N) by (apply N.mul_le_mono; lia).
  assert (Hrw' : (r * n + w * n <= 4000000000 * 2 ^ 32)%N).
  { rewrite <- N.mul_add_distr_r. apply N.mul_le_mono; lia. }
  unfold hotfix_inc_account_sufficients, reads, writes. cbn [read write].
  replace (saturating_mul 1 n) with n by (unfold saturating_mul, u64_max; lia).
  rewrite (saturating_mul_exact 10462000 n) by (unfold u64_max; lia).
  rewrite (saturating_mul_exact r 3) by (unfold u64_max; lia).
  rewrite (saturating_mul_exact r n) by (unfold u64_max; lia).
  rewrite (saturating_mul_exact w 2) by (unfold u64_max; lia).
  rewrite (saturating_mul_exact w n) by (unfold u64_max; lia).
  unfold saturating_add, u64_max. lia.
Qed.

Lemma hotfix_weight_exact_witness :
  hotfix_inc_account_sufficients (mkDbWeight 25000000 100000000) 10 =
    (10462000 * 10 + 25000000 * 3 + 25000000 * 10 + 100000000 * 2 + 100000000 * 10)%N.
Proof. apply hotfix_weight_exact; simpl; lia. Defined.

End EvmWeightsFacts.

(** ** [KnownHashes] on its own *)

Module KnownHashesFacts.

Lemma pop_back_nonempty (l : list H256) :
  l <> [] -> pop_back l = (removelast l, Some (last l 0%N)).
Proof.
  intro H. unfold pop_back.
  rewrite (app_removelast_last 0%N H) at 1.
  rewrite rev_app_distr. simpl. rewrite rev_involutive. reflexivity.
Qed.

Lemma length_removelast (l : list H256) :
  l <> [] -> S (length (removelast l)) = length l.
Proof.
  intro H. rewrite (app_removelast_last 0%N H) at 2.
  rewrite length_app, Nat.add_1_r. reflexivity.
Qed.

Lemma latest_insert (kh : KnownHashes) (v : H256) :
  latest (fst (insert kh v)) = Some v.
Proof.
  unfold insert. destruct (Nat.eqb _ _); [destruct (pop_back (cache kh))|]; reflexivity.
Qed.

Lemma insert_bounded (kh : KnownHashes) (v : H256) :
  0 < cache_size kh -> length (cache kh) <= cache_size kh ->
  length (cache (fst (insert kh v))) <= cache_size kh.
Proof.
  intros Hpos Hle. unfold insert.
  destruct (Nat.eqb (length (cache kh)) (cache_size kh)) eqn:E.
  - apply Nat.eqb_eq in E.
    assert (Hne : cache kh <> []) by (intro H0; rewrite H0 in E; simpl in E; lia).
    rewrite pop_back_nonempty by exact Hne. simpl.
    pose proof (length_removelast _ Hne). lia.
  - apply Nat.eqb_neq in E. simpl. lia.
Qed.

(** With a positive capacity [insert] keeps the cache within it: at a
    full cache it drops and returns the oldest (last) entry, otherwise it
    only prepends and returns nothing. *)
Theorem insert_evicts_oldest_when_full (kh : KnownHashes) (v : H256) :
  0 < cache_size kh -> length (cache kh) <= cache_size kh ->
  length (cache (fst (insert kh v))) <= cache_size kh /\
  (length (cache kh) = cache_size kh ->
   insert kh v = (mkKnownHashes (v :: removelast (cache kh)) (cache_size kh),
                  Some (last (cache kh) 0%N))) /\
  (length (cache kh) < cache_size kh ->
   insert kh v = (mkKnownHashes (v :: cache kh) (cache_size kh), None)).
Proof.
  intros Hpos Hle. split; [apply insert_bounded; assumption|]. split.
  - intro E. unfold insert. rewrite E, Nat.eqb_refl.
    assert (Hne : cache kh <> []) by (intro H0; rewrite H0 in E; simpl in E; lia).
    rewrite pop_back_nonempty by exact Hne. reflexivity.
  - intro Hlt. unfold insert.
    destruct (Nat.eqb (length (cache kh)) (cache_size kh)) eqn:E.
    + apply Nat.eqb_eq in E. lia.
    + reflexivity.
Qed.

Lemma insert_evicts_oldest_when_full_witness :
  insert (mkKnownHashes [3%N; 2%N; 1%N] 3) 4%N = (mkKnownHashes [4%N; 3%N; 2%N] 3, Some 1%N).
Proof.
  exact (proj1 (proj2 (insert_evicts_oldest_when_full (mkKnownHashes [3%N; 2%N; 1%N] 3) 4%N
                         ltac:(simpl; lia) ltac:(simpl; lia))) eq_refl).
Defined.

(** [append] of a non-empty list leaves its last element as [latest], and
    with a positive capacity keeps the cache within it. *)
Theorem append_latest_bounded (kh : KnownHashes) (l : list H256) :
  l <> [] ->
  latest (append kh l) = Some (last l 0%N) /\
  (0 < cache_size kh -> length (cache kh) <= cache_size kh ->
   length (cache (append kh l)) <= cache_size kh).
Proof.
  intro Hne. split.
  - revert kh. induction l as [|a l IH]; intro kh; [contradiction|].
    destruct l as [|b l]; simpl.
    + apply latest_insert.
    + apply (IH ltac:(discriminate)).
  - clear Hne. revert kh. induction l as [|a l IH]; intros kh Hpos Hle; simpl; [exact Hle|].
    rewrite <- (insert_cache_size kh a).
    apply IH; rewrite insert_cache_size; [exact Hpos|].
    apply insert_bounded; assumption.
Qed.

Lemma append_latest_bounded_witness :
  latest (append (mkKnownHashes [1%N] 2) [5%N; 7%N; 9%N]) = Some 9%N /\
  length (cache (append (mkKnownHashes [1%N] 2) [5%N; 7%N; 9%N])) <= 2.
Proof.
  destruct (append_latest_bounded (mkKnownHashes [1%N] 2) [5%N; 7%N; 9%N]
              ltac:(discriminate)) as [H1 H2].
  split; [exact H1|]. apply H2; simpl; lia.
Defined.

(** [populate_cache] on an empty cache loads at most [cache_size] rows
    with one [LIMIT cache_size] query, and, with a positive capacity and a
    non-empty table, makes the most recently inserted row [latest]. *)
Theorem populate_cache_latest (ba : BackendOutcomes) (kh kh' : KnownHashes) (d d' : DB) :
  cache kh = [] -> populate_cache ba kh d = Some (kh', d') ->
  length (cache kh') <= cache_size kh /\
  cache_size kh' = cache_size kh /\
  ba_calls d' = ba_calls d ++ [CallSelectRecent (cache_size kh)] /\
  (0 < cache_size kh -> sync_status d <> [] ->
   latest kh' = Some (last (sync_status d) 0%N)).
Proof.
  intros Hc Hp. unfold populate_cache in Hp.
  destruct (populate_fails ba d); [discriminate|].
  injection Hp as <- <-. simpl. rewrite Hc. simpl.
  split; [apply firstn_le_length|]. split; [reflexivity|]. split; [reflexivity|].
  intros Hpos Hne. unfold latest. simpl.
  rewrite (app_removelast_last 0%N Hne) at 1. rewrite rev_app_distr. simpl.
  destruct (cache_size kh) as [|k]; [lia|]. reflexivity.
Qed.

Lemma populate_cache_latest_witness :
  latest (mkKnownHashes (firstn 2 (rev [1%N; 5%N; 7%N])) 2) = Some 7%N.
Proof.
  exact (proj2 (proj2 (proj2 (populate_cache_latest demo_ba (mkKnownHashes [] 2)
            (mkKnownHashes (firstn 2 (rev [1%N; 5%N; 7%N])) 2) (mkDB [1%N; 5%N; 7%N] [])
            (mkDB [1%N; 5%N; 7%N] [CallSelectRecent 2]) eq_refl eq_refl)))
           ltac:(simpl; lia) ltac:(simpl; discriminate)).
Defined.

End KnownHashesFacts.

(** ** Traversal passes and the run loop *)

Module RunFacts.

(** With [batch_size = 0] a non-force [index_block] never flushes: the
    length check [len == batch_size] is never met after a push, so the
    pending list only grows. *)
Theorem index_block_batch_size_zero ba w d h ok w' d' :
  batch_size w = 0 -> index_block ba w d h false = (ok, w', d') ->
  d' = d /\ (ok = true -> current_batch w' = current_batch w ++ [h]).
Proof.
  intros H0 Hb. rewrite index_block_eq in Hb. cbv zeta in Hb.
  destruct (mem h (current_batch w)) eqn:Hm; simpl in Hb.
  - injection Hb as <- <- <-. split; [reflexivity | discriminate].
  - rewrite H0, length_app, Nat.add_comm in Hb. simpl in Hb.
    injection Hb as <- <- <-. split; reflexivity.
Qed.

Lemma index_block_batch_size_zero_witness :
  index_block demo_ba (mkSyncWorker (mkKnownHashes [] 0) [3%N] 0) (mkDB [] []) 5%N false
  = (true, mkSyncWorker (mkKnownHashes [] 0) [3%N; 5%N] 0, mkDB [] []) /\
  current_batch (mkSyncWorker (mkKnownHashes [] 0) [3%N; 5%N] 0) = [3%N] ++ [5%N].
Proof.
  split; [reflexivity|].
  exact (proj2 (index_block_batch_size_zero demo_ba (mkSyncWorker (mkKnownHashes [] 0) [3%N] 0)
          (mkDB [] []) 5%N true (mkSyncWorker (mkKnownHashes [] 0) [3%N; 5%N] 0) (mkDB [] [])
          eq_refl eq_refl) eq_refl).
Defined.

(** A concrete run: a fresh process with [batch_size = 2] over an empty
    database, then an interval tick with leaf [7]. *)
Definition demo_start : RunState :=
  mkRunState (mkSyncWorker (mkKnownHashes [1%N] 0) [] 2)
             (mkDB [1%N] [CallSelectRecent 0; CallInsertGenesis]) None true 1.

Lemma demo_start_reachable : reachable demo_ba 2 demo_start.
Proof. exact (reach_start demo_ba 2 demo_header [] demo_start eq_refl). Qed.

Definition demo_tick : RunState :=
  interval_step demo_ba 10 (Some [7%N]) demo_header 1000 demo_start.

Lemma demo_tick_reachable : reachable demo_ba 2 demo_tick.
Proof. apply reach_interval. exact demo_start_reachable. Qed.

(** An interval tick with leaf [9], whose header is unknown: [9] stays
    pending. *)
Definition demo_pending : RunState :=
  interval_step demo_ba 10 (Some [9%N]) demo_header 1000 demo_start.

Lemma demo_pending_reachable : reachable demo_ba 2 demo_pending.
Proof. apply reach_interval. exact demo_start_reachable. Qed.

Definition demo_best : RunState :=
  notification_step demo_ba 10 (Some (mkNotification 9%N 7%N true None))
                    demo_header demo_tick.

Lemma demo_best_reachable : reachable demo_ba 2 demo_best.
Proof. apply reach_notification. exact demo_tick_reachable. Qed.

Lemma startup_always_genesis_count ba bs header d0 s :
  startup ba bs header d0 = Some s ->
  try_create_indexes s = true /\ ba_calls (db s) = ba_calls d0 ++ [CallSelectRecent 0; CallInsertGenesis].
Proof.
  intro Hs. pose proof (startup_shape ba bs header d0 s Hs) as (_ & _ & _ & _ & Hc & _).
  split; [|exact Hc].
  revert Hs. unfold startup, populate_cache. simpl.
  destruct (populate_fails ba d0); [discriminate|]. simpl.
  unfold ba_insert_genesis_block_metadata.
  destruct (genesis_result ba _); intro E; injection E as <-; reflexivity.
Qed.

(** With the default capacity 0 the cache is never populated from the
    database, so startup never resumes from the last indexed block: it
    always inserts the genesis metadata, and the genesis hash is the only
    cached hash. *)
Theorem startup_always_genesis ba bs header d0 s :
  startup ba bs header d0 = Some s ->
  resume_at s = None /\ try_create_indexes s = true /\ current_batch (worker s) = [] /\
  ba_calls (db s) = ba_calls d0 ++ [CallSelectRecent 0; CallInsertGenesis] /\
  cache (imported_blocks (worker s)) =
    match genesis_result ba (record_call d0 (CallSelectRecent 0)) with
    | Some g => [g]
    | None => []
    end.
Proof.
  intro Hs. pose proof (startup_shape ba bs header d0 s Hs) as (Hr & _ & _ & Hb & Hc & _).
  repeat split; try assumption.
  - revert Hs. unfold startup, populate_cache. simpl.
    destruct (populate_fails ba d0); [discriminate|]. simpl.
    unfold ba_insert_genesis_block_metadata.
    destruct (genesis_result ba _); intro E; injection E as <-; reflexivity.
  - revert Hs. unfold startup, populate_cache. simpl.
    destruct (populate_fails ba d0); [discriminate|]. simpl.
    unfold ba_insert_genesis_block_metadata.
    destruct (genesis_result ba _); intro E; injection E as <-; reflexivity.
Qed.

Lemma startup_always_genesis_witness :
  startup demo_ba 2 demo_header (mkDB [] []) = Some demo_start /\
  cache (imported_blocks (worker demo_start)) = [1%N].
Proof.
  split; [reflexivity|].
  exact (proj2 (proj2 (proj2 (proj2
           (startup_always_genesis demo_ba 2 demo_header (mkDB [] []) demo_start
              eq_refl))))).
Defined.

(** An interval tick with no pending [resume_at] whose leaves are all in
    the IHC cache makes no backend call and leaves the worker as it was. *)
Theorem interval_cached_leaves_idle ba fuel leaves header interval s :
  resume_at s = None ->
  (forall l, In l leaves -> contains_cached (imported_blocks (worker s)) l = true) ->
  interval_step ba fuel (Some leaves) header interval s =
  mkRunState (worker s) (db s) None (try_create_indexes s) interval.
Proof.
  intros Hr Hl. unfold interval_step. rewrite Hr.
  replace (filter _ leaves) with (@nil H256).
  - destruct fuel; reflexivity.
  - induction leaves as [|l leaves IH]; [reflexivity|]. simpl.
    rewrite (Hl l (or_introl eq_refl)). simpl.
    apply IH. intros x Hx. apply Hl. right. exact Hx.
Qed.

Lemma interval_cached_leaves_idle_witness :
  interval_step demo_ba 10 (Some [1%N]) demo_header 1000 demo_start =
  mkRunState (worker demo_start) (db demo_start) None true 1000.
Proof.
  exact (interval_cached_leaves_idle demo_ba 10 [1%N] demo_header 1000 demo_start
           eq_refl ltac:(intros l [<-|[]]; reflexivity)).
Defined.

(** In every state of [run], the pending batch is shorter than
    [batch_size] (when positive): a full batch is flushed at once. *)
Theorem reachable_pending_below_batch_size ba bs s :
  reachable ba bs s -> 0 < bs -> length (current_batch (worker s)) < bs.
Proof.
  intros Hr Hpos. destruct (reachable_params ba bs s Hr) as (_ & _ & Hb).
  destruct (reachable_inv ba bs s Hr) as (H1 & _). rewrite <- Hb in *. auto.
Qed.

Lemma reachable_pending_below_batch_size_witness :
  length (current_batch (worker demo_pending)) < 2.
Proof.
  exact (reachable_pending_below_batch_size demo_ba 2 demo_pending demo_pending_reachable
           ltac:(lia)).
Defined.

(** In every state of [run], the pending batch has no duplicates and
    shares no hash with the IHC cache. *)
Theorem reachable_pending_nodup_uncached ba bs s :
  reachable ba bs s ->
  NoDup (current_batch (worker s)) /\
  (forall h, In h (current_batch (worker s)) ->
             ~ In h (cache (imported_blocks (worker s)))).
Proof.
  intro Hr. destruct (reachable_inv ba bs s Hr) as (_ & H2 & H3 & _). auto.
Qed.

Lemma reachable_pending_nodup_uncached_witness :
  NoDup (current_batch (worker demo_pending)).
Proof.
  exact (proj1 (reachable_pending_nodup_uncached demo_ba 2 demo_pending
                  demo_pending_reachable)).
Defined.

(** [insert_block_metadata] is never called with an empty batch. *)
Theorem reachable_insert_batches_nonempty ba bs s hs :
  reachable ba bs s -> In (CallInsertMeta hs) (ba_calls (db s)) -> hs <> [].
Proof.
  intros Hr Hin. destruct (reachable_inv ba bs s Hr) as (_ & _ & _ & H4 & _).
  exact (H4 _ Hin).
Qed.

Lemma reachable_insert_batches_nonempty_witness :
  In (CallInsertMeta [7%N; 5%N]) (ba_calls (db demo_tick)) /\ [7%N; 5%N] <> [].
Proof.
  assert (Hin : In (CallInsertMeta [7%N; 5%N]) (ba_calls (db demo_tick))).
  { vm_compute. right. right. right. right. left. reflexivity. }
  exact (conj Hin (reachable_insert_batches_nonempty demo_ba 2 demo_tick _
                     demo_tick_reachable Hin)).
Defined.

(** In a run started over a database with [sync_status] rows [rows],
    every hash in the IHC was submitted to [insert_block_metadata], or is
    the hash that the startup call of [insert_genesis_block_metadata]
    returned (that call sees [rows] and the log of the one [SELECT]
    before it). *)
Theorem run_cache_provenance ba bs header rows s0 s h :
  startup ba bs header (mkDB rows []) = Some s0 -> run_steps ba s0 s ->
  In h (cache (imported_blocks (worker s))) ->
  (exists hs, In (CallInsertMeta hs) (ba_calls (db s)) /\ In h hs) \/
  (In CallInsertGenesis (ba_calls (db s)) /\
   genesis_result ba (record_call (mkDB rows []) (CallSelectRecent 0)) = Some h).
Proof.
  intros Hs0 Hs. revert h.
  change (cache_prov ba (record_call (mkDB rows []) (CallSelectRecent 0))
                     (worker s) (db s)).
  induction Hs as [| s1 fuel leaves header1 interval _ IH | s1 fuel n header1 _ IH].
  - destruct (startup_shape ba bs header _ s0 Hs0) as (_ & _ & _ & _ & Hc & Hk).
    intros h Hh. right. split; [rewrite Hc; right; left; reflexivity|].
    destruct Hk as [E|[g [G E]]]; rewrite E in Hh; [destruct Hh|].
    destruct Hh as [<-|[]]. exact G.
  - unfold interval_step.
    destruct leaves as [leaves|]; [|exact IH].
    destruct (resume_at s1); step_index; eapply index_cache_prov; eassumption.
  - unfold notification_step.
    destruct n as [n|]; [|exact IH]. destruct (is_new_best n); [|exact IH].
    destruct (tree_route n) as [tr|]; [rewrite canonicalize_calls|];
      destruct (try_create_indexes s1); step_index;
      (eapply index_cache_prov; [|eassumption]);
      (eapply cache_prov_grow;
         [ unfold ba_create_indexes, record_call; simpl;
           first [ exact (eq_sym (app_nil_r _)) | rewrite <- ?app_assoc; reflexivity ]
         | exact IH ]).
Qed.

Lemma run_cache_provenance_witness :
  (exists hs, In (CallInsertMeta hs) (ba_calls (db demo_tick)) /\ In 5%N hs) \/
  (In CallInsertGenesis (ba_calls (db demo_tick)) /\
   genesis_result demo_ba (record_call (mkDB [] []) (CallSelectRecent 0)) = Some 5%N).
Proof.
  exact (run_cache_provenance demo_ba 2 demo_header [] demo_start demo_tick 5%N eq_refl
           (steps_interval demo_ba demo_start demo_start 10 (Some [7%N]) demo_header 1000
              (steps_here demo_ba demo_start))
           ltac:(vm_compute; auto)).
Defined.

(** [create_indexes] is called at most once: not at all while
    [try_create_indexes] is set, exactly once after. *)
Theorem reachable_create_indexes_once ba bs s :
  reachable ba bs s ->
  count_create (ba_calls (db s)) = if try_create_indexes s then 0 else 1.
Proof.
  induction 1 as [header rows s Hs | s fuel leaves header interval _ IH
                 | s fuel n header _ IH].
  - destruct (startup_always_genesis_count ba bs header _ s Hs) as [Ht Hc].
    rewrite Ht, Hc. reflexivity.
  - unfold interval_step.
    destruct leaves as [leaves|]; [|exact IH].
    destruct (resume_at s); step_index; rewrite (index_count_create _ _ _ _ _ _ _ _ _ _ _ Hi);
      exact IH.
  - unfold notification_step.
    destruct n as [n|]; [|exact IH]. destruct (is_new_best n); [|exact IH].
    destruct (tree_route n) as [tr|]; [rewrite canonicalize_calls|];
      destruct (try_create_indexes s) eqn:Ht; step_index;
      rewrite (index_count_create _ _ _ _ _ _ _ _ _ _ _ Hi);
      unfold ba_create_indexes, record_call; simpl;
      rewrite ?count_create_app, IH; reflexivity.
Qed.

Lemma reachable_create_indexes_once_witness :
  count_create (ba_calls (db demo_best)) = 1.
Proof.
  exact (reachable_create_indexes_once demo_ba 2 demo_best demo_best_reachable).
Defined.

End RunFacts.

